(** * Delhi Metro route finder: graph construction, shortest route, annotation

    A shallow embedding of the route-finder branch of [delhi_metro_project.py]
    (the [else] branch starting at line 88): the dataframe rows, the
    [networkx] graph built from them, the station list offered to the user,
    the [Get Route] handler and its two annotation loops.

    Conventions.
    - Cell values of the three columns are strings (byte strings, as Rocq's
      [string]); line labels are ASCII text, which is what [strip] and
      [title] below cover.
    - A Python [dict] is an association list in insertion order without
      repeated keys, as in CPython 3.7+.
    - [len(path) - 1] and the like are computed in [nat]; the paths the
      handler sees are never empty. *)

From Stdlib Require Import List String Ascii Bool Arith Lia PeanoNat.
From Stdlib Require Import Sorting.Sorted Structures.OrderedTypeEx.
Import ListNotations.
Open Scope string_scope.
Open Scope list_scope.
Open Scope nat_scope.

Set Implicit Arguments.

(* ------------------------------------------------------------------ *)
(** ** Python dictionaries as insertion-ordered association lists *)

Module Dict.
Section WithValue.
Variable V : Type.

Definition t := list (string * V).

(** [d.get(k)] *)
Fixpoint get (k : string) (d : t) : option V :=
  match d with
  | [] => None
  | (k', v) :: r => if String.eqb k k' then Some v else get k r
  end.

(** [d[k] = v]: an existing key keeps its position, a new key goes last. *)
Fixpoint set (k : string) (v : V) (d : t) : t :=
  match d with
  | [] => [(k, v)]
  | (k', v') :: r =>
      if String.eqb k k' then (k', v) :: r else (k', v') :: set k v r
  end.

(** [list(d)] *)
Definition keys (d : t) : list string := map fst d.

(** [k in d] *)
Definition mem (k : string) (d : t) : bool :=
  match get k d with Some _ => true | None => false end.

End WithValue.
End Dict.

(* ------------------------------------------------------------------ *)
(** ** [str.strip()] and [str.title()] on ASCII text

    On text of ASCII characters (every byte below 128, [is_ascii]) the two
    functions below are CPython's: whitespace is 9-13, 28-31 and 32, the
    cased characters are the 52 letters. Outside ASCII they are not:
    [str.strip] also removes blanks such as U+00A0, and [str.title] maps
    letters such as U+0130, also to more than one character. Statements
    that depend on what the two functions compute are made for ASCII
    text. *)

Definition is_space (c : ascii) : bool :=
  let n := nat_of_ascii c in
  ((9 <=? n) && (n <=? 13) || (28 <=? n) && (n <=? 32))%nat.

Definition is_upper (c : ascii) : bool :=
  let n := nat_of_ascii c in ((65 <=? n) && (n <=? 90))%nat.

Definition is_lower (c : ascii) : bool :=
  let n := nat_of_ascii c in ((97 <=? n) && (n <=? 122))%nat.

Definition to_upper (c : ascii) : ascii :=
  if is_lower c then ascii_of_nat (nat_of_ascii c - 32) else c.

Definition to_lower (c : ascii) : ascii :=
  if is_upper c then ascii_of_nat (nat_of_ascii c + 32) else c.

Fixpoint lstrip (s : string) : string :=
  match s with
  | EmptyString => EmptyString
  | String c r => if is_space c then lstrip r else s
  end.

Fixpoint rstrip (s : string) : string :=
  match s with
  | EmptyString => EmptyString
  | String c r =>
      match rstrip r with
      | EmptyString => if is_space c then EmptyString else String c EmptyString
      | r' => String c r'
      end
  end.

Definition strip (s : string) : string := rstrip (lstrip s).

(** [title]: the first cased character of every run of cased characters is
    upper-cased, the others lower-cased; [prev_cased] is CPython's
    [previous_is_cased]. *)
Fixpoint title_from (prev_cased : bool) (s : string) : string :=
  match s with
  | EmptyString => EmptyString
  | String c r =>
      if is_lower c then
        String (if prev_cased then c else to_upper c) (title_from true r)
      else if is_upper c then
        String (if prev_cased then to_lower c else c) (title_from true r)
      else String c (title_from false r)
  end.

Definition title (s : string) : string := title_from false s.

(** [str(x).strip().title()], lines 92, 115, 133 and 134. *)
Definition normalize (s : string) : string := title (strip s).

(* ------------------------------------------------------------------ *)
(** ** The dataframe *)

Definition station := string.

Record Row := mkRow {
  Station : station;             (* column "Station" *)
  Connected_Station : station;   (* column "Connected_Station" *)
  Line : string                  (* column "Line" *)
}.

Definition DataFrame := list Row.

(** [df.empty] *)
Definition empty (df : DataFrame) : bool :=
  match df with [] => true | _ => false end.

(* ------------------------------------------------------------------ *)
(** ** [nx.Graph]: the adjacency dict of dicts, one [line] attribute per edge

    The class belongs to networkx; what follows is its dict-of-dicts
    representation restricted to what lines 90-93 and 107 use. *)

Definition Graph := Dict.t (Dict.t string).

Definition nodes (G : Graph) : list station := Dict.keys G.

(** [G[u]], the neighbour dict of [u] (empty for a station that is no node). *)
Definition adj_of (G : Graph) (u : station) : Dict.t string :=
  match Dict.get u G with Some nb => nb | None => [] end.

Definition neighbors (G : Graph) (u : station) : list station :=
  Dict.keys (adj_of G u).

(** [G[u][v]["line"]] when the edge is there. *)
Definition edge_line (G : Graph) (u v : station) : option string :=
  Dict.get v (adj_of G u).

Definition add_node (u : station) (G : Graph) : Graph :=
  if Dict.mem u G then G else Dict.set u [] G.

(** [G.add_edge(u, v, line=line)]: both end points become nodes when they are
    not yet, then [G._adj[u][v]] and [G._adj[v][u]] are set. *)
Definition add_edge (u v : station) (line : string) (G : Graph) : Graph :=
  let G1 := add_node u G in
  let G2 := add_node v G1 in
  let G3 := Dict.set u (Dict.set v line (adj_of G2 u)) G2 in
  Dict.set v (Dict.set u line (adj_of G3 v)) G3.

(** Lines 90-93. *)
Definition build_graph (df : DataFrame) : Graph :=
  fold_left
    (fun G row =>
       let line := normalize (Line row) in
       add_edge (Station row) (Connected_Station row) line G)
    df [].

(* ------------------------------------------------------------------ *)
(** ** Line 95: [sorted(set(df["Station"]).union(set(df["Connected_Station"])))] *)

(** A Python [set] of strings, kept as a list without repetition; the order
    of the list stands for the (unspecified) iteration order. *)
Definition set_add (x : string) (s : list string) : list string :=
  if existsb (String.eqb x) s then s else s ++ [x].

(** [s.union(it)] and [set(it)] *)
Definition union (s : list string) (it : list string) : list string :=
  fold_left (fun acc x => set_add x acc) it s.

Definition set_of (it : list string) : list string := union [] it.

(** [sorted]: strings compare by code point, that is byte-wise on UTF-8. *)
Fixpoint insert_sorted (x : string) (l : list string) : list string :=
  match l with
  | [] => [x]
  | y :: r => if String.ltb x y then x :: y :: r else y :: insert_sorted x r
  end.

Definition sorted (l : list string) : list string :=
  fold_left (fun acc x => insert_sorted x acc) l [].

Definition stations (df : DataFrame) : list station :=
  sorted (union (set_of (map Station df)) (set_of (map Connected_Station df))).

(* ------------------------------------------------------------------ *)
(** ** [nx.shortest_path(G, source, destination)] *)

Inductive nx_exception := NetworkXNoPath | NodeNotFound.

Definition path := list station.

(** [paths[v]] for a [v] that was reached. *)
Definition path_to (paths : Dict.t path) (v : station) : path :=
  match Dict.get v paths with Some p => p | None => [] end.

(** Body of the inner loop: [if w not in paths: paths[w] = paths[v] + [w]],
    and [w] joins the next level. *)
Definition visit (v : station) (st : Dict.t path * list station)
    (w : station) : Dict.t path * list station :=
  let '(paths, nextlevel) := st in
  if Dict.mem w paths then (paths, nextlevel)
  else (Dict.set w (path_to paths v ++ [w]) paths, nextlevel ++ [w]).

(** The inner loop [for w in adj[v]]. *)
Definition expand_node (G : Graph) (v : station)
    (st : Dict.t path * list station) : Dict.t path * list station :=
  fold_left (visit v) (neighbors G v) st.

(** One round [for v in thislevel: ...], starting with an empty next level. *)
Definition expand_level (G : Graph) (paths : Dict.t path)
    (thislevel : list station) : Dict.t path * list station :=
  fold_left (fun st v => expand_node G v st) thislevel (paths, []).

(** [while nextlevel: ...]; every round with a non-empty level reaches a new
    node, so [fuel] rounds suffice when [fuel] is the number of nodes. *)
Fixpoint bfs_loop (fuel : nat) (G : Graph) (paths : Dict.t path)
    (level : list station) : Dict.t path :=
  match fuel with
  | 0 => paths
  | S fuel' =>
      match level with
      | [] => paths
      | _ :: _ =>
          let '(paths', nextlevel) := expand_level G paths level in
          bfs_loop fuel' G paths' nextlevel
      end
  end.

Definition single_source_shortest_path (G : Graph) (source : station)
    : Dict.t path :=
  bfs_loop (List.length (nodes G)) G [(source, [source])] [source].

(** Modelled from the spec: [nx.shortest_path] belongs to the networkx
    library, which is not part of the repository. Section 4.3 asks for an
    unweighted breadth-first search with every edge at cost 1, any
    tie-break; the model is networkx's level-by-level search that keeps one
    path per reached node, with the library's two exceptions:
    [NodeNotFound] when an end point is no node of [G], [NetworkXNoPath]
    when the target is not reached. *)
Definition shortest_path (G : Graph) (source target : station)
    : path + nx_exception :=
  if negb (Dict.mem source G) || negb (Dict.mem target G) then
    inr NodeNotFound
  else
    match Dict.get target (single_source_shortest_path G source) with
    | Some p => inl p
    | None => inr NetworkXNoPath
    end.

(* ------------------------------------------------------------------ *)
(** ** The [Get Route] handler, lines 102-146 *)

(** Outcome of lines 103-107 and 145-146: the guard, the search, and the
    one [except] clause, which names [nx.NetworkXNoPath] only. *)
Inductive route_result :=
| RouteFound (p : path)
| SameStationError                 (* line 104 *)
| NoPathError                      (* line 146 *)
| Uncaught (e : nx_exception).     (* leaves the [try] block *)

Definition FindRoute (G : Graph) (source destination : station)
    : route_result :=
  if String.eqb source destination then SameStationError
  else
    match shortest_path G source destination with
    | inl p => RouteFound p
    | inr NetworkXNoPath => NoPathError
    | inr e => Uncaught e
    end.

(** [line_colors], lines 43-54, in insertion order; the emoji are named. *)
Inductive emoji :=
| blue_circle | yellow_circle | red_circle | green_circle | pink_heart
| small_blue_diamond | orange_circle | black_circle | brown_circle
| white_circle.

Definition line_colors : list (string * emoji) :=
  [ ("Blue Line", blue_circle); ("Yellow Line", yellow_circle);
    ("Red Line", red_circle); ("Green Line", green_circle);
    ("Pink Line", pink_heart); ("Violet Line", small_blue_diamond);
    ("Orange Line", orange_circle); ("Magenta Line", small_blue_diamond);
    ("Grey Line", black_circle); ("Airport Express", brown_circle) ].

(** Line 116: first entry whose name is a prefix of the label. *)
Definition emoji_startswith (line_str : string) : emoji :=
  match find (fun '(name, _) => String.prefix name line_str) line_colors with
  | Some (_, e) => e
  | None => white_circle
  end.

(** Lines 140-141: [line_colors.get(label, white circle)]. *)
Definition emoji_get (label : string) : emoji :=
  match find (fun '(name, _) => String.eqb name label) line_colors with
  | Some (_, e) => e
  | None => white_circle
  end.

(** [series.isin(path)] on one cell. *)
Definition isin (x : station) (p : path) : bool := existsb (String.eqb x) p.

(** Lines 111-114: the rows that touch [st] and have their other end
    anywhere on the path. *)
Definition touches_path (p : path) (st : station) (r : Row) : bool :=
  (String.eqb (Station r) st && isin (Connected_Station r) p)
  || (String.eqb (Connected_Station r) st && isin (Station r) p).

Definition line_info (df : DataFrame) (p : path) (st : station)
    : list string :=
  map Line (filter (touches_path p st) df).

(** Line 115. *)
Definition line_str (df : DataFrame) (p : path) (st : station) : string :=
  match line_info df p st with
  | l :: _ => normalize l
  | [] => "N/A"
  end.

(** Lines 124-131: the rows that join [a] and [b], in either orientation. *)
Definition joins (a b : station) (r : Row) : bool :=
  (String.eqb (Station r) a && String.eqb (Connected_Station r) b)
  || (String.eqb (Station r) b && String.eqb (Connected_Station r) a).

Definition pair_lines (df : DataFrame) (a b : station) : list string :=
  map Line (filter (joins a b) df).

(** The label the interchange loop resolves for a pair: element [0] of the
    lookup, normalised (lines 133-134); [None] when the lookup is empty. *)
Definition pair_label (df : DataFrame) (a b : station) : option string :=
  match pair_lines df a b with
  | l :: _ => Some (normalize l)
  | [] => None
  end.

Definition Interchange := (station * string * string)%type.

(** [path[i]]; every index used below is in range. *)
Definition at_ (p : path) (i : nat) : station := nth i p "".

(** Body of the loop of line 123 for one [i]. *)
Definition interchange_at (df : DataFrame) (p : path) (i : nat)
    : list Interchange :=
  let curr_line := pair_lines df (at_ p (i - 1)) (at_ p i) in
  let next_line := pair_lines df (at_ p i) (at_ p (i + 1)) in
  match curr_line, next_line with
  | c :: _, n :: _ =>
      let curr_line := normalize c in
      let next_line := normalize n in
      if String.eqb curr_line next_line then []
      else [(at_ p i, curr_line, next_line)]
  | _, _ => []
  end.

(** Lines 122-136: [for i in range(1, len(path) - 1)], appending. *)
Definition interchanges (df : DataFrame) (p : path) : list Interchange :=
  fold_left (fun acc i => acc ++ interchange_at df p i)
            (seq 1 (List.length p - 2)) [].

(** What the handler puts on the page, one constructor per Streamlit call. *)
Inductive ui_event :=
| warning_same_station                                   (* line 104 *)
| success_total_stops (stops : nat)                      (* line 108 *)
| markdown_route_path                                    (* line 109 *)
| markdown_station (number : nat) (st : station) (e : emoji)
                   (label : string)                      (* lines 117-120 *)
| info_estimated_time (minutes : nat)                    (* line 121 *)
| markdown_interchanges                                  (* line 138 *)
| warning_interchange (st : station) (from_emoji : emoji) (from_line : string)
                      (to_emoji : emoji) (to_line : string)  (* line 142 *)
| info_no_interchanges                                   (* line 144 *)
| error_no_path                                          (* line 146 *)
| error_empty_file.                                      (* line 148 *)

(** Lines 110-120: [for i, station in enumerate(path)]. *)
Definition station_lines (df : DataFrame) (p : path) : list ui_event :=
  map (fun '(i, st) =>
         let l := line_str df p st in
         markdown_station (i + 1) st (emoji_startswith l) l)
      (combine (seq 0 (List.length p)) p).

(** Lines 137-144. *)
Definition interchange_lines (ics : list Interchange) : list ui_event :=
  match ics with
  | [] => [info_no_interchanges]
  | _ :: _ =>
      markdown_interchanges ::
      map (fun '(st, from_line, to_line) =>
             warning_interchange st (emoji_get from_line) from_line
                                 (emoji_get to_line) to_line)
          ics
  end.

(** Lines 108-144, the body of the [try] after a successful search. *)
Definition Annotate (df : DataFrame) (p : path) : list ui_event :=
  [success_total_stops (List.length p - 1); markdown_route_path]
  ++ station_lines df p
  ++ [info_estimated_time ((List.length p - 1) * 2)]
  ++ interchange_lines (interchanges df p).

(** Lines 102-146: the events shown and the exception that escapes, if any. *)
Definition get_route (df : DataFrame) (source destination : station)
    : list ui_event * option nx_exception :=
  match FindRoute (build_graph df) source destination with
  | SameStationError => ([warning_same_station], None)
  | RouteFound p => (Annotate df p, None)
  | NoPathError => ([error_no_path], None)
  | Uncaught e => ([], Some e)
  end.

(** Lines 89-148 once the two select boxes hold [source] and [destination]
    and the button is pressed. *)
Definition route_finder (df : DataFrame) (source destination : station)
    : list ui_event * option nx_exception :=
  if empty df then ([error_empty_file], None)
  else get_route df source destination.

(** The scenario of the specification: A-B red, B-C red, C-D blue. *)
Definition df_scenario : DataFrame :=
  [ mkRow "A" "B" "red"; mkRow "B" "C" "red"; mkRow "C" "D" "blue" ].

(* ------------------------------------------------------------------ *)
(** ** Notions the properties are stated with *)

(** [v] is a neighbour of [u]. *)
Definition adj (G : Graph) (u v : station) : Prop := In v (neighbors G u).

Definition add_row (G : Graph) (row : Row) : Graph :=
  add_edge (Station row) (Connected_Station row) (normalize (Line row)) G.

(** [walk G s w p]: [p] runs from [s] to [w] along edges of [G]; built at
    the far end, the way the search grows its paths. *)
Inductive walk (G : Graph) (s : station) : station -> path -> Prop :=
| walk_start : walk G s s [s]
| walk_step v w p : walk G s v p -> adj G v w -> walk G s w (p ++ [w]).

(** Consecutive stations of [p] are joined by an edge of [G]. *)
Fixpoint linked (G : Graph) (p : path) : Prop :=
  match p with
  | a :: (b :: _) as r => adj G a b /\ linked G r
  | _ => True
  end.

(** A route from [s] to [d]: first station [s], last station [d], linked. *)
Definition route (G : Graph) (s d : station) (p : path) : Prop :=
  hd_error p = Some s /\ last p s = d /\ linked G p.

(** Number of edges on a path, [len(path) - 1]. *)
Definition hops (p : path) : nat := List.length p - 1.

(** State of the search when round [k] starts: [P] holds a shortest walk
    for exactly the stations within [k] edges of [s], and [level] lists
    those at exactly [k] edges. *)
Record Inv (G : Graph) (s : station) (k : nat) (P : Dict.t path)
    (level : list station) : Prop := {
  inv_walk : forall w p, Dict.get w P = Some p -> walk G s w p;
  inv_len : forall w p, Dict.get w P = Some p -> List.length p <= k + 1;
  inv_min : forall w p q,
      Dict.get w P = Some p -> walk G s w q -> List.length p <= List.length q;
  inv_reach : forall w q,
      walk G s w q -> List.length q <= k + 1 -> In w (Dict.keys P);
  inv_level : forall w,
      In w level <-> exists p, Dict.get w P = Some p /\ List.length p = k + 1
}.

(** State in the middle of a round that started from [P0] and [level]. *)
Record Mid (G : Graph) (P0 : Dict.t path) (level : list station)
    (st : Dict.t path * list station) : Prop := {
  mid_old : forall w p, Dict.get w P0 = Some p -> Dict.get w (fst st) = Some p;
  mid_new : forall w p,
      Dict.get w (fst st) = Some p -> Dict.get w P0 = None ->
      In w (snd st)
      /\ exists v pv, In v level /\ Dict.get v P0 = Some pv
                      /\ adj G v w /\ p = pv ++ [w];
  mid_next : forall w,
      In w (snd st) -> Dict.get w P0 = None /\ Dict.get w (fst st) <> None
}.

(** The finished search: a shortest walk for every station it holds, and
    every station that a walk from [s] reaches. *)
Definition complete (G : Graph) (s : station) (R : Dict.t path) : Prop :=
  (forall w p, Dict.get w R = Some p ->
     walk G s w p
     /\ forall q, walk G s w q -> List.length p <= List.length q)
  /\ (forall w q, walk G s w q -> In w (Dict.keys R)).

(** Strict order of Python strings. *)
Definition str_lt (a b : string) : Prop := String.ltb a b = true.

(** Cutting positions [a .. b-1] out of a path. *)
Definition splice (a b : nat) (p : path) : path := firstn a p ++ skipn b p.

(** The rows joining [path[i-1]] and [path[i]], or [path[i]] and [path[i+1]]. *)
Definition beside (p : path) (i : nat) (r : Row) : bool :=
  ((1 <=? i) && joins (at_ p (i - 1)) (at_ p i) r)
  || ((i + 1 <? List.length p) && joins (at_ p i) (at_ p (i + 1)) r).

(** One step of [title]: the character written for [c] when the previous
    character was cased or not, and whether [c] is cased. *)
Definition cased (c : ascii) : bool := is_lower c || is_upper c.

Definition title_char (prev_cased : bool) (c : ascii) : ascii :=
  if is_lower c then (if prev_cased then c else to_upper c)
  else if is_upper c then (if prev_cased then to_lower c else c)
  else c.

(** Whitespace at the ends of a string. *)
Fixpoint all_space (s : string) : bool :=
  match s with
  | EmptyString => true
  | String c r => is_space c && all_space r
  end.

Definition head_space (s : string) : bool :=
  match s with
  | EmptyString => false
  | String c _ => is_space c
  end.

Fixpoint last_space (s : string) : bool :=
  match s with
  | EmptyString => false
  | String c EmptyString => is_space c
  | String _ r => last_space r
  end.

(** An interchange read in the other direction of travel. *)
Definition reverse_interchange (x : Interchange) : Interchange :=
  let '(st, from_line, to_line) := x in (st, to_line, from_line).

(** Lines 37-41: [pd.read_excel] gives the rows or raises; on any exception
    the script goes on with the empty [pd.DataFrame()]. *)
Definition load_data (read_excel : option DataFrame) : DataFrame :=
  match read_excel with
  | Some df => df
  | None => []
  end.

(** Text of ASCII characters only, the domain on which [strip], [title] and
    [normalize] are CPython's functions. *)
Fixpoint is_ascii (s : string) : bool :=
  match s with
  | EmptyString => true
  | String c r => (nat_of_ascii c <? 128) && is_ascii r
  end.

(** [r] is the first row of [df] that [f] keeps: what element [0] of a
    filtered dataframe is. *)
Definition first_row (f : Row -> bool) (df : DataFrame) (r : Row) : Prop :=
  exists before after,
    df = before ++ r :: after
    /\ f r = true
    /\ forall x, In x before -> f x = false.

(** All rows that join [a] and [b] carry the same normalised label. *)
Definition same_label (df : DataFrame) (a b : station) : Prop :=
  forall r r', In r df -> In r' df ->
    joins a b r = true -> joins a b r' = true ->
    normalize (Line r) = normalize (Line r').

(** *** Datasets used as instances *)

(** Two islands: X-P and Y-Q. *)
Definition df_islands : DataFrame :=
  [ mkRow "X" "P" "red line"; mkRow "Y" "Q" "blue line" ].

(** Two rows for A-B with different lines, then B-C. *)
Definition df_relabelled : DataFrame :=
  [ mkRow "A" "B" "red line"; mkRow "A" "B" "blue line";
    mkRow "B" "C" "blue line" ].

(** B-C first, then A-B. *)
Definition df_reordered : DataFrame :=
  [ mkRow "B" "C" "blue line"; mkRow "A" "B" "red line" ].

(** Labels written untidily, and A-B given twice with the same line. *)
Definition df_untidy : DataFrame :=
  [ mkRow "A" "B" " red line"; mkRow "B" "A" "Red Line";
    mkRow "B" "C" "RED LINE "; mkRow "C" "D" "blue line" ].

(* ================================================================== *)
(** * Properties *)

(** ** The scenario of the specification *)

Example scenario_route :
  FindRoute (build_graph df_scenario) "A" "D" = RouteFound ["A"; "B"; "C"; "D"].
Proof. reflexivity. Qed.

Example scenario_interchanges :
  interchanges df_scenario ["A"; "B"; "C"; "D"] = [("C", "Red", "Blue")].
Proof. reflexivity. Qed.

Example scenario_stations : stations df_scenario = ["A"; "B"; "C"; "D"].
Proof. reflexivity. Qed.

(** ** Dictionaries *)

Section DictFacts.
Variable V : Type.
Implicit Types (d : Dict.t V) (k : string) (v : V).

Lemma get_set_same k v d : Dict.get k (Dict.set k v d) = Some v.
Proof.
  induction d as [|[k' v'] r IH]; simpl.
  - now rewrite String.eqb_refl.
  - destruct (String.eqb k k') eqn:E; simpl; rewrite E; auto.
Qed.

Lemma get_set_other k k' v d :
  k' <> k -> Dict.get k' (Dict.set k v d) = Dict.get k' d.
Proof.
  intros N. induction d as [|[k0 v0] r IH]; simpl.
  - apply String.eqb_neq in N. now rewrite N.
  - destruct (String.eqb k k0) eqn:E; simpl.
    + apply String.eqb_eq in E. subst k0.
      apply String.eqb_neq in N. now rewrite N.
    + now rewrite IH.
Qed.

Lemma get_set k k' v d :
  Dict.get k' (Dict.set k v d)
  = if String.eqb k' k then Some v else Dict.get k' d.
Proof.
  destruct (String.eqb k' k) eqn:E.
  - apply String.eqb_eq in E. subst. apply get_set_same.
  - apply String.eqb_neq in E. now apply get_set_other.
Qed.

Lemma in_keys_get k d : In k (Dict.keys d) <-> Dict.get k d <> None.
Proof.
  induction d as [|[k' v'] r IH]; simpl.
  - intuition congruence.
  - destruct (String.eqb k k') eqn:E.
    + apply String.eqb_eq in E. subst. intuition congruence.
    + apply String.eqb_neq in E. rewrite <- IH. intuition congruence.
Qed.

Lemma mem_true k d : Dict.mem k d = true <-> In k (Dict.keys d).
Proof.
  rewrite in_keys_get. unfold Dict.mem.
  destruct (Dict.get k d); intuition congruence.
Qed.

Lemma mem_false k d : Dict.mem k d = false <-> ~ In k (Dict.keys d).
Proof.
  rewrite <- mem_true. destruct (Dict.mem k d); intuition congruence.
Qed.

Lemma get_some_in k v d : Dict.get k d = Some v -> In k (Dict.keys d).
Proof. intros H. apply in_keys_get. congruence. Qed.

Lemma keys_set_old k v d :
  In k (Dict.keys d) -> Dict.keys (Dict.set k v d) = Dict.keys d.
Proof.
  induction d as [|[k' v'] r IH]; simpl; [tauto|].
  intros H. destruct (String.eqb k k') eqn:E; simpl; auto.
  apply String.eqb_neq in E. f_equal. apply IH.
  destruct H; congruence.
Qed.

Lemma keys_set_new k v d :
  ~ In k (Dict.keys d) -> Dict.keys (Dict.set k v d) = Dict.keys d ++ [k].
Proof.
  induction d as [|[k' v'] r IH]; simpl; auto.
  intros H. destruct (String.eqb k k') eqn:E; simpl.
  - apply String.eqb_eq in E. subst. tauto.
  - f_equal. apply IH. tauto.
Qed.

Lemma in_keys_set k k' v d :
  In k' (Dict.keys (Dict.set k v d)) <-> k' = k \/ In k' (Dict.keys d).
Proof.
  rewrite !in_keys_get, get_set.
  destruct (String.eqb k' k) eqn:E.
  - apply String.eqb_eq in E. intuition congruence.
  - apply String.eqb_neq in E. intuition congruence.
Qed.

Lemma NoDup_keys_set k v d :
  NoDup (Dict.keys d) -> NoDup (Dict.keys (Dict.set k v d)).
Proof.
  intros H. destruct (in_dec string_dec k (Dict.keys d)) as [I|I].
  - now rewrite keys_set_old.
  - rewrite keys_set_new by assumption.
    apply NoDup_app; auto.
    + repeat constructor. simpl. tauto.
    + intros x Hx [<-|[]]. tauto.
Qed.

End DictFacts.

(* ------------------------------------------------------------------ *)
(** ** The graph built from the rows *)

Lemma build_graph_fold df : build_graph df = fold_left add_row df [].
Proof. reflexivity. Qed.

Lemma adj_edge_line G u v : adj G u v <-> edge_line G u v <> None.
Proof. unfold adj, neighbors, edge_line. apply in_keys_get. Qed.

Lemma adj_of_set G u nb x :
  adj_of (Dict.set u nb G) x = if String.eqb x u then nb else adj_of G x.
Proof. unfold adj_of. rewrite get_set. now destruct (String.eqb x u). Qed.

Lemma adj_of_add_node G u x : adj_of (add_node u G) x = adj_of G x.
Proof.
  unfold add_node. destruct (Dict.mem u G) eqn:M; auto.
  rewrite adj_of_set. destruct (String.eqb x u) eqn:E; auto.
  apply String.eqb_eq in E. subst x. unfold adj_of.
  unfold Dict.mem in M. now destruct (Dict.get u G).
Qed.

Lemma in_nodes_add_node G u x :
  In x (nodes (add_node u G)) <-> x = u \/ In x (nodes G).
Proof.
  unfold add_node, nodes. destruct (Dict.mem u G) eqn:M.
  - apply mem_true in M. intuition (subst; auto).
  - apply in_keys_set.
Qed.

Lemma NoDup_nodes_add_node G u :
  NoDup (nodes G) -> NoDup (nodes (add_node u G)).
Proof.
  unfold add_node, nodes. destruct (Dict.mem u G); auto.
  apply NoDup_keys_set.
Qed.

Lemma in_nodes_add_edge G a b l x :
  In x (nodes (add_edge a b l G)) <-> x = a \/ x = b \/ In x (nodes G).
Proof.
  unfold add_edge, nodes. rewrite !in_keys_set.
  fold (nodes (add_node b (add_node a G))).
  rewrite !in_nodes_add_node. tauto.
Qed.

Lemma NoDup_nodes_add_edge G a b l :
  NoDup (nodes G) -> NoDup (nodes (add_edge a b l G)).
Proof.
  intros H. unfold add_edge, nodes. do 2 apply NoDup_keys_set.
  now do 2 apply NoDup_nodes_add_node.
Qed.

Lemma edge_line_add_row G r u v :
  edge_line (add_row G r) u v
  = if joins u v r then Some (normalize (Line r)) else edge_line G u v.
Proof.
  unfold add_row, add_edge, edge_line, joins.
  destruct r as [a b l]; simpl.
  rewrite !adj_of_set, !adj_of_add_node.
  rewrite (String.eqb_sym a u), (String.eqb_sym b v),
          (String.eqb_sym a v), (String.eqb_sym b u).
  destruct (String.eqb u b) eqn:Eub; destruct (String.eqb u a) eqn:Eua;
    rewrite ?String.eqb_eq in *; subst;
    rewrite ?String.eqb_refl, ?get_set; simpl;
    repeat match goal with
           | |- context [String.eqb ?x ?y] => destruct (String.eqb x y) eqn:?
           end; simpl; try reflexivity;
    rewrite ?String.eqb_eq, ?String.eqb_neq in *; subst; congruence.
Qed.

Lemma find_app {A} (f : A -> bool) l1 l2 :
  find f (l1 ++ l2)
  = match find f l1 with Some x => Some x | None => find f l2 end.
Proof.
  induction l1 as [|x l1 IH]; simpl; auto. now destruct (f x).
Qed.

(** The label the graph holds for a pair is that of the last row joining it. *)
Lemma edge_line_fold df : forall G u v,
  edge_line (fold_left add_row df G) u v
  = match find (joins u v) (rev df) with
    | Some r => Some (normalize (Line r))
    | None => edge_line G u v
    end.
Proof.
  induction df as [|r df IH]; intros G u v; simpl; auto.
  rewrite IH, find_app. destruct (find (joins u v) (rev df)); auto.
  simpl. rewrite edge_line_add_row. now destruct (joins u v r).
Qed.

Lemma in_nodes_fold df : forall G x,
  In x (nodes (fold_left add_row df G))
  <-> In x (nodes G)
      \/ exists r, In r df /\ (x = Station r \/ x = Connected_Station r).
Proof.
  induction df as [|r df IH]; intros G x; simpl.
  - split; [auto|]. intros [H|[r [[] _]]]. exact H.
  - rewrite IH. unfold add_row at 1. rewrite in_nodes_add_edge.
    split.
    + intros [[H|[H|H]]|[r' [I H]]]; eauto 6.
    + intros [H|[r' [[<-|I] H]]]; [tauto|tauto|eauto].
Qed.

Lemma NoDup_nodes_fold df : forall G,
  NoDup (nodes G) -> NoDup (nodes (fold_left add_row df G)).
Proof.
  induction df as [|r df IH]; intros G H; simpl; auto.
  apply IH. now apply NoDup_nodes_add_edge.
Qed.

Lemma in_nodes_build df x :
  In x (nodes (build_graph df))
  <-> exists r, In r df /\ (x = Station r \/ x = Connected_Station r).
Proof.
  rewrite build_graph_fold, in_nodes_fold. simpl. tauto.
Qed.

Lemma NoDup_nodes_build df : NoDup (nodes (build_graph df)).
Proof. rewrite build_graph_fold. apply NoDup_nodes_fold. constructor. Qed.

(** Every edge of the graph comes from a row, and every row gives an edge. *)
Lemma adj_build df u v :
  adj (build_graph df) u v <-> exists r, In r df /\ joins u v r = true.
Proof.
  rewrite adj_edge_line, build_graph_fold, edge_line_fold.
  destruct (find (joins u v) (rev df)) as [r|] eqn:F.
  - apply find_some in F. destruct F as [I J]. apply in_rev in I.
    split; [eauto|congruence].
  - split; [now intros []|]. intros [r [I J]].
    rewrite (find_none _ _ F r) in J; [discriminate|]. now apply -> in_rev.
Qed.

Lemma joins_sym a b r : joins a b r = joins b a r.
Proof. unfold joins. apply orb_comm. Qed.

Lemma joins_spec a b r :
  joins a b r = true
  <-> (Station r = a /\ Connected_Station r = b)
      \/ (Station r = b /\ Connected_Station r = a).
Proof.
  unfold joins. rewrite orb_true_iff, !andb_true_iff, !String.eqb_eq. tauto.
Qed.

Lemma adj_build_sym df u v :
  adj (build_graph df) u v -> adj (build_graph df) v u.
Proof.
  rewrite !adj_build. intros [r [I J]]. exists r. now rewrite joins_sym.
Qed.

Lemma adj_build_nodes df u v :
  adj (build_graph df) u v ->
  In u (nodes (build_graph df)) /\ In v (nodes (build_graph df)).
Proof.
  rewrite adj_build, !in_nodes_build. intros [r [I J]].
  apply joins_spec in J. split; exists r; intuition.
Qed.

(* ------------------------------------------------------------------ *)
(** ** Walks *)

Lemma walk_nonempty G s w p : walk G s w p -> 1 <= List.length p.
Proof. intros H; inversion H; subst; rewrite ?length_app; simpl; lia. Qed.

Lemma linked_app G p a q :
  linked G (p ++ a :: q) <-> linked G (p ++ [a]) /\ linked G (a :: q).
Proof.
  induction p as [|x p IH].
  - simpl. tauto.
  - destruct p as [|y p].
    + simpl. destruct q; tauto.
    + change (adj G x y /\ linked G ((y :: p) ++ a :: q)
              <-> (adj G x y /\ linked G ((y :: p) ++ [a]))
                  /\ linked G (a :: q)).
      rewrite IH. tauto.
Qed.

Lemma last_app_one (p : path) x d : last (p ++ [x]) d = x.
Proof. apply last_last. Qed.

Lemma hd_error_app (p q : path) x :
  hd_error p = Some x -> hd_error (p ++ q) = Some x.
Proof. destruct p; simpl; auto; discriminate. Qed.

Lemma walk_route G s w p : walk G s w p <-> route G s w p.
Proof.
  split.
  - induction 1 as [|v w p W [Hh [Hl Hk]] A].
    + repeat split.
    + repeat split.
      * now apply hd_error_app.
      * apply last_app_one.
      * destruct p as [|x p] using rev_ind; [discriminate|].
        rewrite last_app_one in Hl. subst x.
        rewrite <- app_assoc. simpl. apply linked_app. split; auto.
        simpl. auto.
  - revert w. induction p as [|x p IH] using rev_ind; intros w [Hh [Hl Hk]].
    + discriminate.
    + rewrite last_app_one in Hl. subst x. destruct p as [|y p] using rev_ind.
      * simpl in Hh. injection Hh as ->. constructor.
      * clear IHp. rewrite <- app_assoc in Hk. simpl in Hk.
        apply linked_app in Hk. destruct Hk as [Hk [A _]].
        apply walk_step with (v := y); auto. apply IH. repeat split; auto.
        -- destruct p; simpl in *; auto.
        -- apply last_app_one.
Qed.

(* ------------------------------------------------------------------ *)
(** ** The breadth-first search *)

Section Search.
Variable G : Graph.

Lemma expand_node_fold v st :
  expand_node G v st = fold_left (visit v) (neighbors G v) st.
Proof. reflexivity. Qed.

(** *** Keys only grow, and what was visited is a key *)

Lemma visit_keys v st w :
  incl (Dict.keys (fst st)) (Dict.keys (fst (visit v st w)))
  /\ In w (Dict.keys (fst (visit v st w)))
  /\ (NoDup (Dict.keys (fst st)) -> NoDup (Dict.keys (fst (visit v st w)))).
Proof.
  destruct st as [P n]. unfold visit.
  destruct (Dict.mem w P) eqn:M; simpl.
  - apply mem_true in M. repeat split; auto. apply incl_refl.
  - repeat split.
    + intros x Hx. apply in_keys_set. auto.
    + apply in_keys_set. auto.
    + apply NoDup_keys_set.
Qed.

Lemma visits_keys v l : forall st,
  let st' := fold_left (visit v) l st in
  incl (Dict.keys (fst st)) (Dict.keys (fst st'))
  /\ (forall w, In w l -> In w (Dict.keys (fst st')))
  /\ (NoDup (Dict.keys (fst st)) -> NoDup (Dict.keys (fst st'))).
Proof.
  induction l as [|w l IH]; intros st; simpl.
  - repeat split; auto. apply incl_refl. intros _ [].
  - destruct (IH (visit v st w)) as [I1 [I2 I3]].
    destruct (visit_keys v st w) as [J1 [J2 J3]].
    repeat split.
    + eapply incl_tran; eauto.
    + intros x [<-|Hx]; auto.
    + auto.
Qed.

Lemma expand_level_keys level : forall st,
  let st' := fold_left (fun st v => expand_node G v st) level st in
  incl (Dict.keys (fst st)) (Dict.keys (fst st'))
  /\ (forall v w, In v level -> adj G v w -> In w (Dict.keys (fst st')))
  /\ (NoDup (Dict.keys (fst st)) -> NoDup (Dict.keys (fst st'))).
Proof.
  induction level as [|v level IH]; intros st; simpl.
  - repeat split; auto. apply incl_refl. intros _ _ [].
  - destruct (IH (expand_node G v st)) as [I1 [I2 I3]].
    rewrite expand_node_fold in *.
    destruct (visits_keys v (neighbors G v) st) as [J1 [J2 J3]].
    repeat split.
    + eapply incl_tran; eauto.
    + intros a b [<-|Ha] Hab; eauto.
    + auto.
Qed.
End Search.

Section Levels.
Variable G : Graph.
Variable s : station.

Lemma Mid_start P0 level : Mid G P0 level (P0, []).
Proof.
  split; simpl; auto.
  - intros w p H1 H2. congruence.
  - intros w [].
Qed.

Lemma Mid_visit k P0 level v w st :
  Inv G s k P0 level -> In v level -> adj G v w ->
  Mid G P0 level st -> Mid G P0 level (visit v st w).
Proof.
  intros I Hv A [Mo Mn Mx]. destruct st as [P n]. simpl in *.
  unfold visit. destruct (Dict.mem w P) eqn:M.
  { split; auto. }
  assert (Gw : Dict.get w P = None).
  { unfold Dict.mem in M. now destruct (Dict.get w P). }
  assert (Gw0 : Dict.get w P0 = None).
  { destruct (Dict.get w P0) eqn:E; auto. apply Mo in E. congruence. }
  destruct (proj1 (inv_level I v) Hv) as [pv [Gv Lv]].
  assert (Pv : path_to P v = pv).
  { unfold path_to. now rewrite (Mo _ _ Gv). }
  rewrite Pv. split; simpl.
  - intros x p Hx. rewrite get_set_other; auto.
    intros ->. congruence.
  - intros x p Hx Hx0. rewrite get_set in Hx.
    destruct (String.eqb x w) eqn:E.
    + apply String.eqb_eq in E. subst x. injection Hx as <-.
      split; [apply in_or_app; simpl; auto|]. exists v, pv. auto.
    + destruct (Mn _ _ Hx Hx0) as [In1 Ex]. split; auto.
      apply in_or_app; auto.
  - intros x Hx. apply in_app_or in Hx. rewrite get_set.
    destruct (String.eqb x w) eqn:E.
    + apply String.eqb_eq in E. subst x. split; congruence.
    + destruct Hx as [Hx|[<-|[]]].
      * now apply Mx.
      * now rewrite String.eqb_refl in E.
Qed.

Lemma Mid_expand_node k P0 level v st :
  Inv G s k P0 level -> In v level ->
  Mid G P0 level st -> Mid G P0 level (expand_node G v st).
Proof.
  intros I Hv. unfold expand_node.
  assert (H : forall l, incl l (neighbors G v) ->
            forall st, Mid G P0 level st ->
                       Mid G P0 level (fold_left (visit v) l st)).
  { induction l as [|w l IH]; intros Hl st0 M; simpl; auto.
    apply IH.
    - intros x Hx. apply Hl. now right.
    - eapply Mid_visit; eauto. apply Hl. now left. }
  apply H. apply incl_refl.
Qed.

Lemma Mid_expand_level k P0 level :
  Inv G s k P0 level -> Mid G P0 level (expand_level G P0 level).
Proof.
  intros I. unfold expand_level.
  assert (H : forall l, incl l level ->
            forall st, Mid G P0 level st ->
              Mid G P0 level (fold_left (fun st v => expand_node G v st) l st)).
  { induction l as [|v l IH]; intros Hl st0 M; simpl; auto.
    apply IH.
    - intros x Hx. apply Hl. now right.
    - eapply Mid_expand_node; eauto. apply Hl. now left. }
  apply H; [apply incl_refl | apply Mid_start].
Qed.

(** One round takes the invariant from [k] to [k + 1]. *)
Lemma Inv_expand_level k P0 level :
  Inv G s k P0 level ->
  Inv G s (k + 1) (fst (expand_level G P0 level)) (snd (expand_level G P0 level)).
Proof.
  intros I. pose proof (Mid_expand_level I) as M.
  destruct (expand_level_keys G level (P0, [])) as [K1 [K2 _]].
  fold (expand_level G P0 level) in K1, K2. simpl in K1.
  destruct (expand_level G P0 level) as [P n]. simpl in *.
  destruct M as [Mo Mn Mx]. simpl in *.
  assert (Old : forall w p, Dict.get w P = Some p ->
            Dict.get w P0 = Some p
            \/ (Dict.get w P0 = None /\ In w n /\ List.length p = k + 2
                /\ exists v pv, Dict.get v P0 = Some pv /\ adj G v w
                                /\ p = pv ++ [w])).
  { intros w p Hp. destruct (Dict.get w P0) as [p0|] eqn:E.
    - left. apply Mo in E. congruence.
    - right. destruct (Mn _ _ Hp E) as [Hn [v [pv [Hv [Gv [A ->]]]]]].
      repeat split; auto.
      + destruct (proj1 (inv_level I v) Hv) as [pv' [Gv' Lv]].
        rewrite length_app. simpl. replace pv with pv' by congruence. lia.
      + eauto. }
  split.
  - intros w p Hp. destruct (Old _ _ Hp) as [H|[_ [_ [_ [v [pv [Gv [A ->]]]]]]]].
    + eapply inv_walk; eauto.
    + eapply walk_step; eauto. eapply inv_walk; eauto.
  - intros w p Hp. destruct (Old _ _ Hp) as [H|[_ [_ [L _]]]].
    + pose proof (inv_len I _ H). lia.
    + lia.
  - intros w p q Hp Wq. destruct (Old _ _ Hp) as [H|[H0 [_ [L _]]]].
    + eapply inv_min; eauto.
    + destruct (Nat.le_gt_cases (List.length q) (k + 1)) as [Le|Gt]; [|lia].
      apply (inv_reach I Wq) in Le. apply in_keys_get in Le. congruence.
  - intros w q Wq Lq. inversion Wq as [|v w' q' Wq' A]; subst.
    + apply K1. apply (inv_reach I Wq). simpl. lia.
    + rewrite length_app in Lq. simpl in Lq.
      assert (Hv : In v (Dict.keys P0)) by (apply (inv_reach I Wq'); lia).
      apply in_keys_get in Hv.
      destruct (Dict.get v P0) as [pv|] eqn:Gv; [|congruence].
      pose proof (inv_min I Gv Wq') as Lm.
      destruct (Nat.eq_dec (List.length pv) (k + 1)) as [E|N].
      * apply K2 with (v := v); auto. apply (inv_level I). eauto.
      * apply K1. apply (inv_reach I (w := w) (q := pv ++ [w])).
        -- eapply walk_step; eauto. eapply inv_walk; eauto.
        -- rewrite length_app. simpl. lia.
  - intros w. split.
    + intros Hw. destruct (Mx _ Hw) as [H0 H1].
      destruct (Dict.get w P) as [p|] eqn:Gp; [|congruence].
      exists p. split; auto.
      destruct (Old _ _ Gp) as [H|[_ [_ [L _]]]]; [congruence|lia].
    + intros [p [Gp L]].
      destruct (Old _ _ Gp) as [H|[_ [Hn _]]]; auto.
      pose proof (inv_len I _ H). lia.
Qed.
End Levels.

Section Loop.
Variable G : Graph.
Variable s : station.

(** Neighbours are nodes, as in every graph made by [add_edge]. *)
Hypothesis closed : forall u v, adj G u v -> In v (nodes G).
Hypothesis source_node : In s (nodes G).

Lemma walk_in_nodes w p : walk G s w p -> In w (nodes G).
Proof. intros W. inversion W; subst; eauto. Qed.

Lemma Inv_init : Inv G s 0 [(s, [s])] [s].
Proof.
  split; simpl.
  - intros w p. destruct (String.eqb w s) eqn:E; [|discriminate].
    apply String.eqb_eq in E. subst. intros [= <-]. constructor.
  - intros w p. destruct (String.eqb w s); [|discriminate].
    intros [= <-]. simpl. lia.
  - intros w p q. destruct (String.eqb w s); [|discriminate].
    intros [= <-] W. apply (walk_nonempty W).
  - intros w q W L. inversion W as [|v w' q' W' A]; subst; auto.
    rewrite length_app in L. apply walk_nonempty in W'. simpl in L. lia.
  - intros w. split.
    + intros [<-|[]]. rewrite String.eqb_refl. eauto.
    + intros [p [H _]]. destruct (String.eqb w s) eqn:E; [|discriminate].
      apply String.eqb_eq in E. auto.
Qed.

(** With an empty level nothing is left to reach. *)
Lemma Inv_exhausted k P :
  Inv G s k P [] -> forall w q, walk G s w q -> In w (Dict.keys P).
Proof.
  intros I w q W. induction W as [|v w q W IH A].
  - apply (inv_reach I (walk_start G s)). simpl. lia.
  - apply in_keys_get in IH.
    destruct (Dict.get v P) as [pv|] eqn:Gv; [|congruence].
    pose proof (inv_len I _ Gv) as L.
    destruct (Nat.eq_dec (List.length pv) (k + 1)) as [E|N].
    + exfalso. apply (proj2 (inv_level I v)). eauto.
    + apply (inv_reach I (w := w) (q := pv ++ [w])).
      * eapply walk_step; eauto. eapply inv_walk; eauto.
      * rewrite length_app. simpl. lia.
Qed.

Lemma bfs_loop_complete : forall fuel k P level,
  Inv G s k P level -> NoDup (Dict.keys P) ->
  level = [] \/ List.length (nodes G) - List.length (Dict.keys P) < fuel ->
  complete G s (bfs_loop fuel G P level).
Proof.
  assert (Done : forall k P, Inv G s k P [] -> complete G s P).
  { intros k P I. split.
    - intros w p Hp. split; [eapply inv_walk; eauto|].
      intros q. eapply inv_min; eauto.
    - eapply Inv_exhausted; eauto. }
  induction fuel as [|fuel IH]; intros k P level I ND F.
  - destruct F as [->|F]; [|lia]. simpl. eauto.
  - simpl. destruct level as [|v level]; [eauto|].
    pose proof (Inv_expand_level I) as I'.
    destruct (expand_level_keys G (v :: level) (P, [])) as [K1 [_ K3]].
    fold (expand_level G P (v :: level)) in K1, K3. simpl in K1, K3.
    destruct (expand_level G P (v :: level)) as [P' n] eqn:E. simpl in *.
    apply IH with (k := k + 1); auto.
    destruct n as [|x n]; [now left|right].
    destruct (proj1 (inv_level I' x) (or_introl eq_refl)) as [px [Gx Lx]].
    assert (Nx : ~ In x (Dict.keys P)).
    { intros Hx. apply in_keys_get in Hx.
      destruct (Dict.get x P) as [p0|] eqn:G0; [|congruence].
      pose proof (inv_len I _ G0).
      assert (Dict.get x P' = Some p0).
      { pose proof (Mid_expand_level I) as M. rewrite E in M.
        apply (mid_old M _ G0). }
      replace p0 with px in * by congruence. lia. }
    assert (L1 : List.length (x :: Dict.keys P) <= List.length (Dict.keys P')).
    { apply NoDup_incl_length; [constructor; auto|].
      intros y [<-|Hy]; auto. eapply get_some_in; eauto. }
    assert (L2 : List.length (Dict.keys P') <= List.length (nodes G)).
    { apply NoDup_incl_length; auto.
      intros y Hy. apply in_keys_get in Hy.
      destruct (Dict.get y P') as [py|] eqn:Gy; [|congruence].
      eapply walk_in_nodes. eapply (inv_walk I'); eauto. }
    simpl in L1. destruct F as [F|F]; [discriminate|].
    unfold station in *. lia.
Qed.

Theorem single_source_complete : complete G s (single_source_shortest_path G s).
Proof.
  unfold single_source_shortest_path.
  apply bfs_loop_complete with (k := 0).
  - apply Inv_init.
  - simpl. repeat constructor. simpl. tauto.
  - right. simpl. destruct (nodes G) as [|x l]; [destruct source_node|].
    simpl. lia.
Qed.
End Loop.

(** ** What [shortest_path] returns on a graph whose neighbours are nodes *)

Section ShortestPath.
Variable G : Graph.
Hypothesis closed : forall u v, adj G u v -> In v (nodes G).

Lemma shortest_path_not_node s t :
  ~ In s (nodes G) \/ ~ In t (nodes G) ->
  shortest_path G s t = inr NodeNotFound.
Proof.
  unfold shortest_path, nodes. intros [H|H]; apply mem_false in H; rewrite H.
  - reflexivity.
  - now rewrite orb_true_r.
Qed.

Lemma shortest_path_nodes s t :
  In s (nodes G) -> In t (nodes G) ->
  shortest_path G s t
  = match Dict.get t (single_source_shortest_path G s) with
    | Some p => inl p
    | None => inr NetworkXNoPath
    end.
Proof.
  unfold shortest_path, nodes. intros Hs Ht.
  apply mem_true in Hs, Ht. now rewrite Hs, Ht.
Qed.

Lemma shortest_path_found s t q :
  In s (nodes G) -> walk G s t q ->
  exists p, shortest_path G s t = inl p
            /\ walk G s t p
            /\ forall q', walk G s t q' -> List.length p <= List.length q'.
Proof.
  intros Hs W. destruct (@single_source_complete G s closed Hs) as [C1 C2].
  rewrite shortest_path_nodes; auto; [|eapply walk_in_nodes; eauto].
  pose proof (C2 _ _ W) as K. apply in_keys_get in K.
  destruct (Dict.get t (single_source_shortest_path G s)) as [p|] eqn:E;
    [|congruence].
  exists p. split; auto.
Qed.

Lemma shortest_path_inl s t p :
  shortest_path G s t = inl p ->
  walk G s t p
  /\ forall q, walk G s t q -> List.length p <= List.length q.
Proof.
  intros H.
  destruct (in_dec string_dec s (nodes G)) as [Hs|Hs];
    [|rewrite shortest_path_not_node in H; auto; discriminate].
  destruct (in_dec string_dec t (nodes G)) as [Ht|Ht];
    [|rewrite shortest_path_not_node in H; auto; discriminate].
  rewrite shortest_path_nodes in H; auto.
  destruct (@single_source_complete G s closed Hs) as [C1 _].
  destruct (Dict.get t (single_source_shortest_path G s)) as [p'|] eqn:E;
    [|discriminate].
  injection H as ->. now apply C1.
Qed.

Lemma shortest_path_unreachable s t :
  In s (nodes G) -> In t (nodes G) ->
  (forall q, ~ walk G s t q) ->
  shortest_path G s t = inr NetworkXNoPath.
Proof.
  intros Hs Ht N. rewrite shortest_path_nodes; auto.
  destruct (@single_source_complete G s closed Hs) as [C1 _].
  destruct (Dict.get t (single_source_shortest_path G s)) as [p|] eqn:E; auto.
  destruct (C1 _ _ E) as [W _]. now apply N in W.
Qed.
End ShortestPath.

(* ------------------------------------------------------------------ *)
(** ** The station list *)

Lemma str_lt_iff a b : str_lt a b <-> String_as_OT.lt a b.
Proof.
  unfold str_lt, String.ltb. rewrite <- String_as_OT.cmp_lt.
  unfold String_as_OT.cmp. destruct (String.compare a b); intuition congruence.
Qed.

Lemma str_lt_trans a b c : str_lt a b -> str_lt b c -> str_lt a c.
Proof. rewrite !str_lt_iff. apply String_as_OT.lt_trans. Qed.

Lemma str_lt_irrefl a : ~ str_lt a a.
Proof.
  rewrite str_lt_iff. intros H. apply String_as_OT.lt_not_eq in H.
  now apply H.
Qed.

Lemma str_lt_total a b : String.ltb a b = false -> a <> b -> str_lt b a.
Proof.
  unfold str_lt, String.ltb. intros H N. rewrite String.compare_antisym.
  destruct (String.compare a b) eqn:E; simpl; try congruence.
  apply String.compare_eq_iff in E. congruence.
Qed.

Lemma in_set_add x y s : In y (set_add x s) <-> y = x \/ In y s.
Proof.
  unfold set_add. destruct (existsb (String.eqb x) s) eqn:E.
  - apply existsb_exists in E. destruct E as [z [Hz E]].
    apply String.eqb_eq in E. subst z. intuition (subst; auto).
  - rewrite in_app_iff. simpl. intuition.
Qed.

Lemma NoDup_set_add x s : NoDup s -> NoDup (set_add x s).
Proof.
  intros H. unfold set_add. destruct (existsb (String.eqb x) s) eqn:E; auto.
  apply NoDup_app; auto.
  - repeat constructor. simpl. tauto.
  - intros y Hy [E'|[]]. subst y.
    assert (existsb (String.eqb x) s = true); [|congruence].
    apply existsb_exists. exists x. split; auto. apply String.eqb_refl.
Qed.

Lemma union_spec it : forall s,
  (forall x, In x (union s it) <-> In x s \/ In x it)
  /\ (NoDup s -> NoDup (union s it)).
Proof.
  unfold union. induction it as [|y it IH]; intros s; simpl.
  - split; [tauto|auto].
  - destruct (IH (set_add y s)) as [I1 I2]. split.
    + intros x. rewrite I1, in_set_add. intuition.
    + intros H. apply I2. now apply NoDup_set_add.
Qed.

Lemma in_insert_sorted x y l : In y (insert_sorted x l) <-> y = x \/ In y l.
Proof.
  induction l as [|z l IH]; simpl.
  - intuition.
  - destruct (String.ltb x z); simpl; rewrite ?IH; intuition.
Qed.

Lemma insert_sorted_sorted x l :
  ~ In x l -> StronglySorted str_lt l -> StronglySorted str_lt (insert_sorted x l).
Proof.
  intros N S. induction S as [|z l S IH F]; simpl.
  - repeat constructor.
  - destruct (String.ltb x z) eqn:E.
    + constructor; [now constructor|]. constructor; auto.
      eapply Forall_impl; [|exact F]. intros a Ha. eapply str_lt_trans; eauto.
    + constructor.
      * apply IH. simpl in N. tauto.
      * apply Forall_forall. intros a Ha. apply in_insert_sorted in Ha.
        destruct Ha as [->|Ha].
        -- apply str_lt_total; auto. simpl in N. intros ->. tauto.
        -- rewrite Forall_forall in F. auto.
Qed.

Lemma sorted_spec l : forall acc,
  NoDup l -> (forall x, In x l -> ~ In x acc) -> StronglySorted str_lt acc ->
  StronglySorted str_lt (fold_left (fun acc x => insert_sorted x acc) l acc)
  /\ forall x, In x (fold_left (fun acc x => insert_sorted x acc) l acc)
               <-> In x acc \/ In x l.
Proof.
  induction l as [|y l IH]; intros acc ND D S; simpl.
  - split; [auto|tauto].
  - inversion ND as [|? ? Ny ND']; subst.
    destruct (IH (insert_sorted y acc)) as [I1 I2]; auto.
    + intros x Hx Hi. apply in_insert_sorted in Hi. destruct Hi as [->|Hi].
      * exact (Ny Hx).
      * apply (D x); simpl; auto.
    + apply insert_sorted_sorted; auto. apply D. now left.
    + split; auto. intros x. rewrite I2, in_insert_sorted. simpl.
      intuition congruence.
Qed.

Lemma StronglySorted_NoDup l : StronglySorted str_lt l -> NoDup l.
Proof.
  induction 1 as [|x l S IH F]; constructor; auto.
  intros Hx. rewrite Forall_forall in F. apply (str_lt_irrefl (F _ Hx)).
Qed.

Lemma in_stations df x :
  In x (stations df)
  <-> In x (map Station df) \/ In x (map Connected_Station df).
Proof.
  unfold stations, sorted, set_of.
  destruct (union_spec (map Station df) []) as [U1 N1].
  destruct (union_spec (map Connected_Station df) []) as [U2 N2].
  destruct (union_spec (union [] (map Connected_Station df))
                       (union [] (map Station df))) as [U3 N3].
  destruct (@sorted_spec
              (union (union [] (map Station df))
                     (union [] (map Connected_Station df))) [])
    as [_ I]; [apply N3, N1; constructor | intros ? _ [] | constructor |].
  rewrite I, U3, U1, U2. simpl. tauto.
Qed.

Lemma stations_sorted df : StronglySorted str_lt (stations df).
Proof.
  unfold stations, sorted, set_of.
  destruct (union_spec (map Station df) []) as [U1 N1].
  destruct (union_spec (union [] (map Connected_Station df))
                       (union [] (map Station df))) as [U3 N3].
  apply sorted_spec; [apply N3, N1; constructor | intros ? _ [] | constructor].
Qed.

(** The select boxes offer exactly the nodes of the graph. *)
Lemma stations_nodes df x :
  In x (stations df) <-> In x (nodes (build_graph df)).
Proof.
  rewrite in_stations, in_nodes_build, !in_map_iff. split.
  - intros [[r [E I]]|[r [E I]]]; exists r; auto.
  - intros [r [I [E|E]]]; [left|right]; exists r; auto.
Qed.

(* ------------------------------------------------------------------ *)
(** ** Routes on the built graph *)

Lemma linked_at G p :
  linked G p
  <-> forall i, i + 1 < List.length p -> adj G (at_ p i) (at_ p (i + 1)).
Proof.
  unfold at_. induction p as [|a p IH].
  - simpl. split; auto. intros _ i H. lia.
  - destruct p as [|b p].
    + simpl. split; auto. intros _ i H. lia.
    + change (linked G (a :: b :: p)) with (adj G a b /\ linked G (b :: p)).
      rewrite IH. split.
      * intros [A H] [|i] L; [exact A|].
        apply (H i). simpl in *. lia.
      * intros H. split.
        -- apply (H 0). simpl. lia.
        -- intros i L. apply (H (S i)). simpl in *. lia.
Qed.

Lemma closed_build df u v :
  adj (build_graph df) u v -> In v (nodes (build_graph df)).
Proof. intros H. now apply adj_build_nodes in H. Qed.

Lemma walk_source_node df s w p :
  walk (build_graph df) s w p -> s = w \/ In s (nodes (build_graph df)).
Proof.
  induction 1 as [|v w p W IH A]; auto.
  destruct IH as [->|IH]; auto. right. now apply adj_build_nodes in A.
Qed.

(** What [FindRoute] does on the built graph, case by case. *)
Lemma FindRoute_found df s d q :
  s <> d -> route (build_graph df) s d q ->
  exists p, FindRoute (build_graph df) s d = RouteFound p
            /\ route (build_graph df) s d p
            /\ forall q', route (build_graph df) s d q' -> hops p <= hops q'.
Proof.
  intros N R. apply walk_route in R.
  destruct (walk_source_node df R) as [E|Hs]; [contradiction|].
  destruct (shortest_path_found (@closed_build df) Hs R) as [p [E [W M]]].
  exists p. unfold FindRoute. apply String.eqb_neq in N. rewrite N, E.
  split; [reflexivity|]. split; [now apply walk_route|].
  intros q' R'. apply walk_route in R'. apply M in R'. unfold hops. lia.
Qed.

Lemma FindRoute_RouteFound df s d p :
  FindRoute (build_graph df) s d = RouteFound p ->
  s <> d
  /\ route (build_graph df) s d p
  /\ forall q, route (build_graph df) s d q -> hops p <= hops q.
Proof.
  unfold FindRoute. destruct (String.eqb s d) eqn:E; [discriminate|].
  apply String.eqb_neq in E.
  destruct (shortest_path (build_graph df) s d) as [p'|[]] eqn:S;
    try discriminate.
  intros [= ->]. apply (@shortest_path_inl _ (@closed_build df)) in S.
  destruct S as [W M]. split; [assumption|]. split; [now apply walk_route|].
  intros q R. apply walk_route in R. apply M in R. unfold hops. lia.
Qed.

(* ------------------------------------------------------------------ *)
(** ** Shape of a shortest route *)

Lemma last_at (p : path) d : p <> [] -> last p d = at_ p (List.length p - 1).
Proof.
  unfold at_. induction p as [|a p IH]; [congruence|]. intros _.
  destruct p as [|b p]; [reflexivity|].
  change (last (a :: b :: p) d) with (last (b :: p) d).
  rewrite IH by discriminate. simpl. now rewrite Nat.sub_0_r.
Qed.

(** A route, read by position. *)
Lemma route_at G s d p :
  route G s d p
  <-> 1 <= List.length p /\ at_ p 0 = s /\ at_ p (List.length p - 1) = d
      /\ forall i, i + 1 < List.length p -> adj G (at_ p i) (at_ p (i + 1)).
Proof.
  unfold route. rewrite linked_at. destruct p as [|a p].
  - simpl. split; [intros [H _]; discriminate | intros [H _]; lia].
  - rewrite last_at by discriminate. split.
    + intros [H [L K]]. simpl in H. injection H as ->.
      repeat split; auto. simpl. lia.
    + intros [_ [H0 [L K]]]. change (at_ (a :: p) 0) with a in H0.
      subst a. auto.
Qed.

Lemma splice_length a b p :
  a <= b -> b < List.length p ->
  List.length (splice a b p) = a + List.length p - b.
Proof.
  intros H1 H2. unfold splice.
  rewrite length_app, length_firstn, length_skipn. lia.
Qed.

Lemma splice_at a b p k :
  a <= b -> b < List.length p ->
  at_ (splice a b p) k = if k <? a then at_ p k else at_ p (k + (b - a)).
Proof.
  intros H1 H2. unfold at_, splice.
  assert (La : List.length (firstn a p) = a)
    by (rewrite length_firstn; lia).
  destruct (k <? a) eqn:E.
  - apply Nat.ltb_lt in E. rewrite app_nth1 by lia.
    rewrite nth_firstn. apply Nat.ltb_lt in E. now rewrite E.
  - apply Nat.ltb_ge in E. rewrite app_nth2 by lia.
    rewrite nth_skipn, La. f_equal. lia.
Qed.

Lemma splice_route G s d p a b :
  route G s d p -> a <= b -> b < List.length p ->
  (a = 0 -> at_ p b = s) ->
  (1 <= a -> adj G (at_ p (a - 1)) (at_ p b)) ->
  route G s d (splice a b p).
Proof.
  rewrite !route_at. intros [L [Hs [Hd K]]] H1 H2 H0 HA.
  rewrite splice_length by assumption.
  repeat split.
  - lia.
  - rewrite splice_at by assumption. destruct a as [|a]; simpl.
    + rewrite Nat.sub_0_r. auto.
    + assumption.
  - rewrite splice_at by assumption.
    replace (a + List.length p - b - 1 <? a) with false
      by (symmetry; apply Nat.ltb_ge; lia).
    rewrite <- Hd. f_equal. lia.
  - intros i Hi. rewrite !splice_at by assumption.
    destruct (i <? a) eqn:E1; destruct (i + 1 <? a) eqn:E2;
      rewrite ?Nat.ltb_lt, ?Nat.ltb_ge in *.
    + apply K. lia.
    + replace (i + 1 + (b - a)) with b by lia.
      replace i with (a - 1) by lia. apply HA. lia.
    + lia.
    + replace (i + 1 + (b - a)) with (i + (b - a) + 1) by lia.
      apply K. lia.
Qed.

(** On a route with the fewest edges, two stations that are neighbours in
    the graph stand next to each other (or are the same position). *)
Lemma shortest_route_no_chord G s d p i j :
  (forall u v, adj G u v -> adj G v u) ->
  route G s d p ->
  (forall q, route G s d q -> hops p <= hops q) ->
  i < List.length p -> j < List.length p ->
  adj G (at_ p i) (at_ p j) ->
  j = i \/ j = i + 1 \/ i = j + 1.
Proof.
  intros Sym R M Hi Hj A.
  assert (Cut : forall a b, a < b -> b < List.length p ->
            adj G (at_ p a) (at_ p b) -> b = a + 1).
  { intros a b Hab Hb Aab.
    destruct (Nat.eq_dec b (a + 1)) as [|N]; auto. exfalso.
    assert (R' : route G s d (splice (a + 1) b p)).
    { apply splice_route; auto; try lia.
      intros _. now replace (a + 1 - 1) with a by lia. }
    apply M in R'. unfold hops in R'.
    rewrite splice_length in R' by lia. lia. }
  destruct (Nat.lt_trichotomy i j) as [H|[H|H]].
  - right; left. now apply Cut.
  - left. now symmetry.
  - right; right. apply Cut; auto.
Qed.

(* ------------------------------------------------------------------ *)
(** ** The two dataframe lookups *)

Lemma hd_map_filter {A B} (g : A -> B) (f : A -> bool) l :
  match map g (filter f l) with x :: _ => Some x | [] => None end
  = option_map g (find f l).
Proof.
  induction l as [|x l IH]; simpl; auto. now destruct (f x).
Qed.

Lemma pair_label_find df a b :
  pair_label df a b
  = option_map (fun r => normalize (Line r)) (find (joins a b) df).
Proof.
  unfold pair_label, pair_lines.
  pose proof (hd_map_filter Line (joins a b) df) as H.
  destruct (map Line (filter (joins a b) df)); destruct (find (joins a b) df);
    simpl in *; congruence.
Qed.

Lemma line_str_find df p st :
  line_str df p st
  = match find (touches_path p st) df with
    | Some r => normalize (Line r)
    | None => "N/A"%string
    end.
Proof.
  unfold line_str, line_info.
  pose proof (hd_map_filter Line (touches_path p st) df) as H.
  destruct (map Line (filter (touches_path p st) df));
    destruct (find (touches_path p st) df); simpl in *; congruence.
Qed.

Lemma find_is_some {A} (f : A -> bool) l :
  (exists x, In x l /\ f x = true) <-> find f l <> None.
Proof.
  split.
  - intros [x [I F]] N. rewrite (find_none _ _ N x I) in F. discriminate.
  - destruct (find f l) as [x|] eqn:E; [|congruence].
    intros _. apply find_some in E. eauto.
Qed.

(** A pair has an edge in the graph exactly when its lookup finds a row. *)
Lemma adj_pair_label df a b :
  adj (build_graph df) a b <-> pair_label df a b <> None.
Proof.
  rewrite adj_build, find_is_some, pair_label_find.
  destruct (find (joins a b) df); simpl; intuition congruence.
Qed.

Lemma pair_label_lines df a b :
  pair_label df a b <> None <-> pair_lines df a b <> [].
Proof.
  unfold pair_label. destruct (pair_lines df a b); intuition congruence.
Qed.

Lemma find_ext_in {A} (f g : A -> bool) l :
  (forall x, In x l -> f x = g x) -> find f l = find g l.
Proof.
  induction l as [|x l IH]; simpl; auto. intros H.
  rewrite (H x) by auto. destruct (g x); auto.
Qed.

Lemma find_orb {A} (f g : A -> bool) l :
  find (fun x => f x || g x) l = find f l
  \/ find (fun x => f x || g x) l = find g l.
Proof.
  induction l as [|x l IH]; simpl; auto.
  destruct (f x) eqn:F; destruct (g x) eqn:Gx; simpl; auto.
Qed.

(** ** The interchange loop *)

Lemma fold_append {A B} (f : A -> list B) l : forall acc,
  fold_left (fun acc i => acc ++ f i) l acc = acc ++ flat_map f l.
Proof.
  induction l as [|x l IH]; intros acc; simpl.
  - now rewrite app_nil_r.
  - now rewrite IH, app_assoc.
Qed.

Lemma interchanges_flat_map df p :
  interchanges df p
  = flat_map (interchange_at df p) (seq 1 (List.length p - 2)).
Proof. unfold interchanges. now rewrite fold_append. Qed.

Lemma interchange_at_labels df p i :
  interchange_at df p i
  = match pair_label df (at_ p (i - 1)) (at_ p i),
          pair_label df (at_ p i) (at_ p (i + 1)) with
    | Some a, Some b =>
        if String.eqb a b then [] else [(at_ p i, a, b)]
    | _, _ => []
    end.
Proof.
  unfold interchange_at, pair_label.
  destruct (pair_lines df (at_ p (i - 1)) (at_ p i));
    destruct (pair_lines df (at_ p i) (at_ p (i + 1))); reflexivity.
Qed.

Lemma flat_map_nil {A B} (f : A -> list B) l :
  (forall x, In x l -> f x = []) -> flat_map f l = [].
Proof.
  induction l as [|x l IH]; simpl; auto. intros H.
  rewrite (H x), IH; auto.
Qed.

(** Every consecutive pair of a found route has a label. *)
Lemma found_route_labels df s d p :
  FindRoute (build_graph df) s d = RouteFound p ->
  forall i, i + 1 < List.length p ->
  exists a, pair_label df (at_ p i) (at_ p (i + 1)) = Some a.
Proof.
  intros F i Hi. apply FindRoute_RouteFound in F.
  destruct F as [_ [R _]]. apply route_at in R.
  destruct R as [_ [_ [_ K]]]. apply K, adj_pair_label in Hi.
  destruct (pair_label df (at_ p i) (at_ p (i + 1))); [eauto|congruence].
Qed.

(** ** The per-station lookup on a found route *)

Lemma isin_In x p : isin x p = true <-> In x p.
Proof.
  unfold isin. rewrite existsb_exists. split.
  - intros [y [I E]]. apply String.eqb_eq in E. now subst.
  - intros I. exists x. split; auto. apply String.eqb_refl.
Qed.

Lemma at_In (p : path) i : i < List.length p -> In (at_ p i) p.
Proof. intros H. now apply nth_In. Qed.

Lemma In_at (p : path) x :
  In x p -> exists j, j < List.length p /\ at_ p j = x.
Proof. intros H. apply (In_nth p x ""%string H). Qed.

Lemma touches_path_spec p st r :
  touches_path p st r = true
  <-> (Station r = st /\ In (Connected_Station r) p)
      \/ (Connected_Station r = st /\ In (Station r) p).
Proof.
  unfold touches_path.
  rewrite orb_true_iff, !andb_true_iff, !String.eqb_eq, !isin_In. tauto.
Qed.

(** On a found route, and without rows from a station to itself, the rows
    the per-station lookup keeps are those of the two edges at the station. *)
Lemma touches_beside df s d p i r :
  FindRoute (build_graph df) s d = RouteFound p ->
  (forall r, In r df -> Station r <> Connected_Station r) ->
  i < List.length p -> In r df ->
  touches_path p (at_ p i) r = beside p i r.
Proof.
  intros F NL Hi Hr. apply FindRoute_RouteFound in F.
  destruct F as [_ [R M]].
  assert (Near : forall j, j < List.length p ->
            joins (at_ p i) (at_ p j) r = true -> beside p i r = true).
  { intros j Hj J.
    assert (A : adj (build_graph df) (at_ p i) (at_ p j))
      by (apply adj_build; eauto).
    destruct (shortest_route_no_chord (@adj_build_sym df) R M Hi Hj A)
      as [E|[E|E]]; unfold beside.
    - subst j. apply joins_spec in J. exfalso. apply (NL r Hr).
      destruct J as [[-> ->]|[-> ->]]; reflexivity.
    - subst j. apply orb_true_iff. right.
      apply andb_true_iff. split; auto. now apply Nat.ltb_lt.
    - subst i. apply orb_true_iff. left.
      apply andb_true_iff. split; [apply Nat.leb_le; lia|].
      replace (j + 1 - 1) with j by lia. now rewrite joins_sym. }
  destruct (touches_path p (at_ p i) r) eqn:T.
  - symmetry. apply touches_path_spec in T.
    destruct T as [[E I]|[E I]]; apply In_at in I; destruct I as [j [Hj Ej]];
      apply (Near j Hj); apply joins_spec; rewrite Ej; auto.
  - symmetry. destruct (beside p i r) eqn:B; auto.
    rewrite <- T. symmetry. apply touches_path_spec.
    unfold beside in B. apply orb_true_iff in B.
    destruct B as [B|B]; apply andb_true_iff in B; destruct B as [C J];
      apply joins_spec in J.
    + apply Nat.leb_le in C.
      assert (In (at_ p (i - 1)) p) by (apply at_In; lia).
      destruct J as [[E1 E2]|[E1 E2]]; [right|left]; split; congruence.
    + apply Nat.ltb_lt in C.
      assert (In (at_ p (i + 1)) p) by (apply at_In; lia).
      destruct J as [[E1 E2]|[E1 E2]]; [left|right]; split; congruence.
Qed.

Lemma line_str_beside df s d p i :
  FindRoute (build_graph df) s d = RouteFound p ->
  (forall r, In r df -> Station r <> Connected_Station r) ->
  i < List.length p ->
  line_str df p (at_ p i)
  = match find (beside p i) df with
    | Some r => normalize (Line r)
    | None => "N/A"%string
    end.
Proof.
  intros F NL Hi. rewrite line_str_find.
  rewrite (find_ext_in (touches_path p (at_ p i)) (beside p i)); auto.
  intros r Hr. eapply touches_beside; eauto.
Qed.

Lemma found_route_length df s d p :
  FindRoute (build_graph df) s d = RouteFound p -> 2 <= List.length p.
Proof.
  intros F. apply FindRoute_RouteFound in F. destruct F as [N [R _]].
  apply route_at in R. destruct R as [L [H0 [H1 _]]].
  destruct (Nat.eq_dec (List.length p) 1) as [E|E]; [|lia].
  rewrite E in H1. simpl in H1. congruence.
Qed.

(** ** First rows and stored labels *)

Lemma find_first_row (f : Row -> bool) df r :
  find f df = Some r <-> first_row f df r.
Proof.
  unfold first_row. split.
  - induction df as [|x df IH]; simpl; [discriminate|].
    destruct (f x) eqn:E.
    + intros [= ->]. exists [], df. repeat split; auto. intros y [].
    + intros H. destruct (IH H) as [before [after [-> [Fr B]]]].
      exists (x :: before), after. repeat split; auto.
      intros y [<-|Hy]; auto.
  - intros [before [after [-> [Fr B]]]].
    induction before as [|x before IH]; simpl.
    + now rewrite Fr.
    + rewrite (B x) by (now left). apply IH. intros y Hy. apply B. now right.
Qed.

Lemma first_row_in f df r : first_row f df r -> In r df /\ f r = true.
Proof.
  intros [before [after [-> [Fr _]]]]. split; auto.
  apply in_or_app. right. now left.
Qed.

Lemma pair_label_first_row df a b l :
  pair_label df a b = Some l
  <-> exists r, first_row (joins a b) df r /\ l = normalize (Line r).
Proof.
  rewrite pair_label_find. split.
  - destruct (find (joins a b) df) as [r|] eqn:F; [|discriminate].
    simpl. intros [= <-]. exists r. split; auto. now apply find_first_row.
  - intros [r [F ->]]. apply find_first_row in F. now rewrite F.
Qed.

(** With one label for the pair, any row joining it gives the stored label. *)
Lemma stored_label_of_row df a b r :
  same_label df a b -> In r df -> joins a b r = true ->
  edge_line (build_graph df) a b = Some (normalize (Line r)).
Proof.
  intros S I J. rewrite build_graph_fold, edge_line_fold.
  destruct (find (joins a b) (rev df)) as [r'|] eqn:F.
  - apply find_some in F. destruct F as [I' J']. apply in_rev in I'.
    f_equal. now apply S.
  - rewrite (find_none _ _ F r) in J; [discriminate|]. now apply -> in_rev.
Qed.

Lemma pair_label_stored df a b :
  same_label df a b ->
  adj (build_graph df) a b ->
  pair_label df a b = edge_line (build_graph df) a b.
Proof.
  intros S A. apply adj_pair_label in A.
  destruct (pair_label df a b) as [l|] eqn:P; [|congruence].
  apply pair_label_first_row in P. destruct P as [r [F ->]].
  apply first_row_in in F. destruct F as [I J].
  symmetry. now apply stored_label_of_row.
Qed.

Lemma first_row_orb_left (f g : Row -> bool) df r :
  first_row (fun x => f x || g x) df r -> f r = true -> first_row f df r.
Proof.
  intros [before [after [-> [_ B]]]] Fr. exists before, after.
  repeat split; auto. intros x Hx. apply B in Hx.
  now apply orb_false_iff in Hx.
Qed.

Lemma first_row_orb_right (f g : Row -> bool) df r :
  first_row (fun x => f x || g x) df r -> g r = true -> first_row g df r.
Proof.
  intros [before [after [-> [_ B]]]] Gr. exists before, after.
  repeat split; auto. intros x Hx. apply B in Hx.
  now apply orb_false_iff in Hx.
Qed.

(* ================================================================== *)
(** * The claims *)

(** C1. For distinct [source] and [destination] in one connected component
    of the network, [FindRoute] returns a path that starts at [source], ends
    at [destination], has an edge of the network between any two consecutive
    stations, and whose number of edges is the least among all routes from
    [source] to [destination]. *)
Theorem FindRoute_minimum_hops df source destination q :
  source <> destination ->
  route (build_graph df) source destination q ->
  exists p,
    FindRoute (build_graph df) source destination = RouteFound p
    /\ hd_error p = Some source
    /\ last p source = destination
    /\ (forall i, i + 1 < List.length p ->
          adj (build_graph df) (at_ p i) (at_ p (i + 1)))
    /\ route (build_graph df) source destination p
    /\ (forall q', route (build_graph df) source destination q' ->
          List.length p - 1 <= List.length q' - 1).
Proof.
  intros N R. destruct (@FindRoute_found df _ _ _ N R) as [p [F [Rp M]]].
  exists p. pose proof Rp as [Hh [Hl Hk]].
  repeat split; auto. now apply linked_at.
Qed.

Lemma FindRoute_minimum_hops_witness :
  exists p,
    FindRoute (build_graph df_scenario) "A" "D" = RouteFound p
    /\ hd_error p = Some "A"%string
    /\ last p "A"%string = "D"%string
    /\ (forall i, i + 1 < List.length p ->
          adj (build_graph df_scenario) (at_ p i) (at_ p (i + 1)))
    /\ route (build_graph df_scenario) "A" "D" p
    /\ (forall q', route (build_graph df_scenario) "A" "D" q' ->
          List.length p - 1 <= List.length q' - 1).
Proof.
  apply (@FindRoute_minimum_hops df_scenario "A" "D" ["A"; "B"; "C"; "D"]%string).
  - discriminate.
  - vm_compute. tauto.
Defined.

(** C2. [FindRoute] with the same station as source and destination fails
    with [SameStationError] whatever the network is, and the handler shows
    the warning and nothing else: no search result enters the outcome. *)
Theorem FindRoute_same_station A :
  (forall G, FindRoute G A A = SameStationError)
  /\ (forall df, get_route df A A = ([warning_same_station], None)).
Proof.
  assert (H : forall G, FindRoute G A A = SameStationError).
  { intros G. unfold FindRoute. now rewrite String.eqb_refl. }
  split; auto. intros df. unfold get_route. now rewrite H.
Qed.

(** C3. For two distinct nodes of the network with no route between them,
    [FindRoute] fails with [NoPathError], and the handler shows the error
    message instead of a route. *)
Theorem FindRoute_no_path df source destination :
  source <> destination ->
  In source (nodes (build_graph df)) ->
  In destination (nodes (build_graph df)) ->
  (forall q, ~ route (build_graph df) source destination q) ->
  FindRoute (build_graph df) source destination = NoPathError
  /\ get_route df source destination = ([error_no_path], None).
Proof.
  intros N Hs Hd U.
  assert (F : FindRoute (build_graph df) source destination = NoPathError).
  { unfold FindRoute. apply String.eqb_neq in N. rewrite N.
    rewrite (@shortest_path_unreachable _ (@closed_build df)); auto.
    intros q W. apply walk_route in W. now apply U in W. }
  split; auto. unfold get_route. now rewrite F.
Qed.

Lemma islands_unreachable :
  forall q, ~ route (build_graph df_islands) "X" "Y" q.
Proof.
  intros q R. apply walk_route in R.
  assert (H : forall w p, walk (build_graph df_islands) "X" w p ->
            w = "X"%string \/ w = "P"%string).
  { induction 1 as [|v w p W IH A]; auto.
    destruct IH as [-> | ->]; vm_compute in A; intuition. }
  destruct (H _ _ R); discriminate.
Qed.

Lemma FindRoute_no_path_witness :
  FindRoute (build_graph df_islands) "X" "Y" = NoPathError
  /\ get_route df_islands "X" "Y" = ([error_no_path], None).
Proof.
  apply (@FindRoute_no_path df_islands "X" "Y").
  - discriminate.
  - vm_compute. tauto.
  - vm_compute. tauto.
  - exact islands_unreachable.
Defined.

(** C5. When [FindRoute] succeeds with path [p], the handler reports
    [len(p) - 1] total stops and [(len(p) - 1) * 2] minutes, and no other
    figures. *)
Theorem reported_stops_and_time df source destination p :
  FindRoute (build_graph df) source destination = RouteFound p ->
  fst (get_route df source destination) = Annotate df p
  /\ (forall n, In (success_total_stops n) (Annotate df p)
                <-> n = List.length p - 1)
  /\ (forall m, In (info_estimated_time m) (Annotate df p)
                <-> m = (List.length p - 1) * 2).
Proof.
  intros F. unfold get_route. rewrite F. split; [reflexivity|].
  assert (S1 : forall e, In e (station_lines df p) ->
            exists i st em l, e = markdown_station i st em l).
  { unfold station_lines. intros e He. apply in_map_iff in He.
    destruct He as [[i st] [<- _]]. eauto. }
  assert (S2 : forall e, In e (interchange_lines (interchanges df p)) ->
            e = info_no_interchanges \/ e = markdown_interchanges
            \/ exists st fe f te t, e = warning_interchange st fe f te t).
  { unfold interchange_lines. intros e He.
    destruct (interchanges df p) as [|x l].
    - destruct He as [<-|[]]. auto.
    - destruct He as [<-|He]; auto. apply in_map_iff in He.
      destruct He as [[[st f] t] [<- _]]. right. right. eauto 6. }
  unfold Annotate. split; intros k; simpl; rewrite !in_app_iff; simpl.
  - split.
    + intros [H|[H|[H|[H|H]]]]; try discriminate.
      * now injection H.
      * apply S1 in H. destruct H as [? [? [? [? H]]]]. discriminate.
      * apply S2 in H.
        destruct H as [H|[H|[? [? [? [? [? H]]]]]]]; discriminate.
    + intros ->. auto.
  - split.
    + intros [H|[H|[H|[H|H]]]]; try discriminate.
      * apply S1 in H. destruct H as [? [? [? [? H]]]]. discriminate.
      * now injection H.
      * apply S2 in H.
        destruct H as [H|[H|[? [? [? [? [? H]]]]]]]; discriminate.
    + intros ->. auto.
Qed.

Lemma reported_stops_and_time_witness :
  fst (get_route df_scenario "A" "D") = Annotate df_scenario ["A"; "B"; "C"; "D"]%string
  /\ (forall n, In (success_total_stops n)
                   (Annotate df_scenario ["A"; "B"; "C"; "D"]%string)
                <-> n = 3)
  /\ (forall m, In (info_estimated_time m)
                   (Annotate df_scenario ["A"; "B"; "C"; "D"]%string)
                <-> m = 6).
Proof.
  apply (@reported_stops_and_time df_scenario "A" "D" ["A"; "B"; "C"; "D"]%string).
  reflexivity.
Defined.

(** C6. The station list is sorted (strictly increasing), has no
    duplicates, and holds exactly the values of the two station columns. *)
Theorem stations_sorted_union df :
  StronglySorted str_lt (stations df)
  /\ NoDup (stations df)
  /\ (forall x, In x (stations df)
                <-> In x (map Station df) \/ In x (map Connected_Station df)).
Proof.
  split; [apply stations_sorted|]. split.
  - apply StronglySorted_NoDup, stations_sorted.
  - apply in_stations.
Qed.

(** The interchange list of a found route, in terms of the labels the
    loop resolves. *)
Lemma interchanges_by_pair_label df source destination p :
  FindRoute (build_graph df) source destination = RouteFound p ->
  (forall i, 1 <= i -> i + 1 < List.length p ->
     exists a b,
       pair_label df (at_ p (i - 1)) (at_ p i) = Some a
       /\ pair_label df (at_ p i) (at_ p (i + 1)) = Some b
       /\ (In (at_ p i, a, b) (interchanges df p) <-> a <> b))
  /\ (forall st a b, In (st, a, b) (interchanges df p) ->
        exists i, 1 <= i /\ i + 1 < List.length p /\ st = at_ p i
                  /\ pair_label df (at_ p (i - 1)) (at_ p i) = Some a
                  /\ pair_label df (at_ p i) (at_ p (i + 1)) = Some b
                  /\ a <> b)
  /\ ((forall i, 1 <= i -> i + 1 < List.length p ->
         pair_label df (at_ p (i - 1)) (at_ p i)
         = pair_label df (at_ p i) (at_ p (i + 1))) ->
      interchanges df p = [])
  /\ (forall i a b,
        1 <= i -> i + 1 < List.length p ->
        pair_label df (at_ p (i - 1)) (at_ p i) = Some a ->
        pair_label df (at_ p i) (at_ p (i + 1)) = Some b ->
        a <> b ->
        (forall j, 1 <= j -> j + 1 < List.length p -> j <> i ->
           pair_label df (at_ p (j - 1)) (at_ p j)
           = pair_label df (at_ p j) (at_ p (j + 1))) ->
        interchanges df p = [(at_ p i, a, b)]).
Proof.
  intros F.
  assert (Same : forall j,
            pair_label df (at_ p (j - 1)) (at_ p j)
            = pair_label df (at_ p j) (at_ p (j + 1)) ->
            interchange_at df p j = []).
  { intros j E. rewrite interchange_at_labels, E.
    destruct (pair_label df (at_ p j) (at_ p (j + 1))); auto.
    now rewrite String.eqb_refl. }
  assert (Sound : forall st a b, In (st, a, b) (interchanges df p) ->
            exists i, 1 <= i /\ i + 1 < List.length p /\ st = at_ p i
                  /\ pair_label df (at_ p (i - 1)) (at_ p i) = Some a
                  /\ pair_label df (at_ p i) (at_ p (i + 1)) = Some b
                  /\ a <> b).
  { intros st a b H. rewrite interchanges_flat_map in H.
    apply in_flat_map in H. destruct H as [i [Hi H]].
    apply in_seq in Hi. rewrite interchange_at_labels in H.
    destruct (pair_label df (at_ p (i - 1)) (at_ p i)) as [a'|] eqn:Ea;
      [|destruct H].
    destruct (pair_label df (at_ p i) (at_ p (i + 1))) as [b'|] eqn:Eb;
      [|destruct H].
    destruct (String.eqb a' b') eqn:E; [destruct H|].
    destruct H as [[= <- <- <-]|[]]. apply String.eqb_neq in E.
    exists i. unfold station in *. repeat split; auto; lia. }
  split; [|split; [exact Sound|split]].
  - intros i H1 H2.
    destruct (@found_route_labels df source destination p F (i - 1))
      as [a Ha]; [lia|].
    destruct (@found_route_labels df source destination p F i)
      as [b Hb]; [lia|].
    replace (i - 1 + 1) with i in Ha by lia.
    exists a, b. repeat split; auto.
    + intros H. apply Sound in H. destruct H as [_ [_ [_ [_ [_ [_ N]]]]]].
      exact N.
    + intros N. rewrite interchanges_flat_map. apply in_flat_map.
      exists i. split; [apply in_seq; lia|].
      rewrite interchange_at_labels, Ha, Hb.
      apply String.eqb_neq in N. rewrite N. now left.
  - intros H. rewrite interchanges_flat_map. apply flat_map_nil.
    intros j Hj. apply in_seq in Hj. apply Same, H; lia.
  - intros i a b H1 H2 Ha Hb N Others.
    rewrite interchanges_flat_map.
    replace (List.length p - 2) with ((i - 1) + (1 + (List.length p - 2 - i)))
      by lia.
    rewrite seq_app, flat_map_app. replace (1 + (i - 1)) with i by lia.
    rewrite (seq_app 1), flat_map_app. simpl.
    rewrite !flat_map_nil.
    + rewrite interchange_at_labels, Ha, Hb.
      apply String.eqb_neq in N. now rewrite N.
    + intros j Hj. apply in_seq in Hj. apply Same, Others; lia.
    + intros j Hj. apply in_seq in Hj. apply Same, Others; lia.
Qed.

(** C7, as the code has it. The label the interchange loop compares for a
    pair of stations is the normalised [Line] of the first row of the
    dataframe that joins the pair. On a path [p] returned by [FindRoute]
    every interior position [i] has such a first row for the edge before it
    and one for the edge after it, and the triple of [p[i]] and their two
    labels is in the interchange list exactly when the labels differ; every
    triple of the list comes from such a position; with no change of label
    the list is empty; with a change at exactly one position the list is
    that one triple. When all rows joining each pair of consecutive stations
    of the path carry the same normalised label, these labels are the ones
    the graph stores for the edges, and an interchange is listed at [p[i]]
    exactly when the stored labels of the two edges differ. *)
Theorem interchange_iff_first_row_label_change df source destination p :
  FindRoute (build_graph df) source destination = RouteFound p ->
  (forall a b l,
     pair_label df a b = Some l
     <-> exists r, first_row (joins a b) df r /\ l = normalize (Line r))
  /\ (forall i, 1 <= i -> i + 1 < List.length p ->
        exists r1 r2,
          first_row (joins (at_ p (i - 1)) (at_ p i)) df r1
          /\ first_row (joins (at_ p i) (at_ p (i + 1))) df r2
          /\ (In (at_ p i, normalize (Line r1), normalize (Line r2))
                 (interchanges df p)
              <-> normalize (Line r1) <> normalize (Line r2)))
  /\ (forall st a b, In (st, a, b) (interchanges df p) ->
        exists i r1 r2,
          1 <= i /\ i + 1 < List.length p /\ st = at_ p i
          /\ first_row (joins (at_ p (i - 1)) (at_ p i)) df r1
          /\ first_row (joins (at_ p i) (at_ p (i + 1))) df r2
          /\ a = normalize (Line r1) /\ b = normalize (Line r2) /\ a <> b)
  /\ ((forall i, 1 <= i -> i + 1 < List.length p ->
         pair_label df (at_ p (i - 1)) (at_ p i)
         = pair_label df (at_ p i) (at_ p (i + 1))) ->
      interchanges df p = [])
  /\ (forall i a b,
        1 <= i -> i + 1 < List.length p ->
        pair_label df (at_ p (i - 1)) (at_ p i) = Some a ->
        pair_label df (at_ p i) (at_ p (i + 1)) = Some b ->
        a <> b ->
        (forall j, 1 <= j -> j + 1 < List.length p -> j <> i ->
           pair_label df (at_ p (j - 1)) (at_ p j)
           = pair_label df (at_ p j) (at_ p (j + 1))) ->
        interchanges df p = [(at_ p i, a, b)])
  /\ ((forall i, i + 1 < List.length p ->
         same_label df (at_ p i) (at_ p (i + 1))) ->
      (forall i, i + 1 < List.length p ->
         pair_label df (at_ p i) (at_ p (i + 1))
         = edge_line (build_graph df) (at_ p i) (at_ p (i + 1)))
      /\ forall i, 1 <= i -> i + 1 < List.length p ->
           exists a b,
             edge_line (build_graph df) (at_ p (i - 1)) (at_ p i) = Some a
             /\ edge_line (build_graph df) (at_ p i) (at_ p (i + 1)) = Some b
             /\ (In (at_ p i, a, b) (interchanges df p) <-> a <> b)).
Proof.
  intros F.
  destruct (@interchanges_by_pair_label df source destination p F)
    as [Each [Sound [None One]]].
  split; [intros a b l; apply pair_label_first_row|].
  split; [|split; [|split; [exact None|split; [exact One|]]]].
  - intros i H1 H2. destruct (Each i H1 H2) as [a [b [Ha [Hb Iff]]]].
    apply pair_label_first_row in Ha, Hb.
    destruct Ha as [r1 [F1 ->]], Hb as [r2 [F2 ->]]. exists r1, r2. auto.
  - intros st a b H.
    destruct (Sound st a b H) as [i [H1 [H2 [E [Ha [Hb N]]]]]].
    apply pair_label_first_row in Ha, Hb.
    destruct Ha as [r1 [F1 Ea]], Hb as [r2 [F2 Eb]].
    exists i, r1, r2. repeat split; auto.
  - intros Same.
    assert (Stored : forall i, i + 1 < List.length p ->
              pair_label df (at_ p i) (at_ p (i + 1))
              = edge_line (build_graph df) (at_ p i) (at_ p (i + 1))).
    { intros i Hi. apply pair_label_stored; auto.
      pose proof (FindRoute_RouteFound df _ _ F) as [_ [R _]].
      apply route_at in R. destruct R as [_ [_ [_ K]]]. now apply K. }
    split; [exact Stored|]. intros i H1 H2.
    destruct (Each i H1 H2) as [a [b [Ha [Hb Iff]]]].
    exists a, b. rewrite <- Stored by assumption.
    pose proof (Stored (i - 1)) as S1.
    replace (i - 1 + 1) with i in S1 by lia.
    rewrite <- S1 by lia. auto.
Qed.

Lemma interchange_iff_first_row_label_change_witness :
  FindRoute (build_graph df_untidy) "A" "D"
  = RouteFound ["A"; "B"; "C"; "D"]%string
  /\ interchanges df_untidy ["A"; "B"; "C"; "D"]%string
     = [("C", "Red Line", "Blue Line")]%string
  /\ exists a b,
       edge_line (build_graph df_untidy) "B" "C" = Some a
       /\ edge_line (build_graph df_untidy) "C" "D" = Some b
       /\ (In ("C"%string, a, b)
               (interchanges df_untidy ["A"; "B"; "C"; "D"]%string)
           <-> a <> b).
Proof.
  split; [reflexivity|].
  destruct (@interchange_iff_first_row_label_change df_untidy "A" "D"
              ["A"; "B"; "C"; "D"]%string eq_refl)
    as [_ [_ [_ [_ [One Stored]]]]].
  split.
  - apply (One 2 "Red Line"%string "Blue Line"%string);
      [simpl; lia | simpl; lia | reflexivity | reflexivity | discriminate |].
    intros j H1 H2 N. simpl in H2. assert (j = 1) as -> by lia. reflexivity.
  - assert (Same : forall i, i + 1 < 4 ->
              same_label df_untidy (at_ ["A"; "B"; "C"; "D"]%string i)
                         (at_ ["A"; "B"; "C"; "D"]%string (i + 1))).
    { intros i Hi r r' Hr Hr'.
      assert (i = 0 \/ i = 1 \/ i = 2) as [-> | [-> | ->]] by lia;
        destruct Hr as [<-|[<-|[<-|[<-|[]]]]];
        destruct Hr' as [<-|[<-|[<-|[<-|[]]]]];
        intros J1 J2; solve [reflexivity | discriminate]. }
    destruct (Stored Same) as [_ At]. apply (At 2); simpl; lia.
Defined.

(** C7 as stated fails: both edges of the route carry the label Blue Line
    in the graph, and the loop still lists an interchange at B, because for
    A-B it resolves the label of the earlier of the two rows. *)
Lemma interchange_without_stored_label_change :
  FindRoute (build_graph df_relabelled) "A" "C"
  = RouteFound ["A"; "B"; "C"]%string
  /\ edge_line (build_graph df_relabelled) "A" "B" = Some "Blue Line"%string
  /\ edge_line (build_graph df_relabelled) "B" "C" = Some "Blue Line"%string
  /\ In ("B", "Red Line", "Blue Line")%string
        (interchanges df_relabelled ["A"; "B"; "C"]%string).
Proof. repeat split; try reflexivity. simpl. auto. Qed.

(** C10. On a path returned by the search over the graph built from the
    rows, at every interior position both pair lookups of the interchange
    loop return at least one row, so the guard of line 132 passes and the
    loop body is the comparison of the two first labels. *)
Theorem interchange_lookups_nonempty df source destination p :
  FindRoute (build_graph df) source destination = RouteFound p ->
  forall i, 1 <= i -> i + 1 < List.length p ->
  exists c cs n ns,
    pair_lines df (at_ p (i - 1)) (at_ p i) = c :: cs
    /\ pair_lines df (at_ p i) (at_ p (i + 1)) = n :: ns
    /\ 0 < List.length (c :: cs) /\ 0 < List.length (n :: ns)
    /\ interchange_at df p i
       = if String.eqb (normalize c) (normalize n) then []
         else [(at_ p i, normalize c, normalize n)].
Proof.
  intros F i H1 H2.
  destruct (@found_route_labels df source destination p F (i - 1))
    as [a Ha]; [lia|].
  destruct (@found_route_labels df source destination p F i)
    as [b Hb]; [lia|].
  replace (i - 1 + 1) with i in Ha by lia.
  unfold interchange_at. unfold pair_label in Ha, Hb.
  destruct (pair_lines df (at_ p (i - 1)) (at_ p i)) as [|c cs];
    [discriminate|].
  destruct (pair_lines df (at_ p i) (at_ p (i + 1))) as [|n ns];
    [discriminate|].
  exists c, cs, n, ns. simpl. repeat split; auto; lia.
Qed.

Lemma interchange_lookups_nonempty_witness :
  FindRoute (build_graph df_scenario) "A" "D"
  = RouteFound ["A"; "B"; "C"; "D"]%string
  /\ exists c cs n ns,
       pair_lines df_scenario "B" "C" = c :: cs
       /\ pair_lines df_scenario "C" "D" = n :: ns
       /\ 0 < List.length (c :: cs) /\ 0 < List.length (n :: ns)
       /\ interchange_at df_scenario ["A"; "B"; "C"; "D"]%string 2
          = if String.eqb (normalize c) (normalize n) then []
            else [("C"%string, normalize c, normalize n)].
Proof.
  split; [reflexivity|].
  apply (@interchange_lookups_nonempty df_scenario "A" "D"
           ["A"; "B"; "C"; "D"]%string eq_refl 2); simpl; lia.
Defined.

(** C9, as the code has it. The graph keeps for a pair of stations the
    normalised label of the last row joining them; the interchange loop
    resolves a pair, in either order, to the normalised label of the first
    row joining them; the two agree when all rows joining the pair carry the
    same normalised label. *)
Theorem stored_and_resolved_label df u v :
  edge_line (build_graph df) u v
  = option_map (fun r => normalize (Line r)) (find (joins u v) (rev df))
  /\ pair_label df u v
     = option_map (fun r => normalize (Line r)) (find (joins u v) df)
  /\ pair_label df u v = pair_label df v u
  /\ ((forall r r', In r df -> In r' df ->
         joins u v r = true -> joins u v r' = true ->
         normalize (Line r) = normalize (Line r')) ->
      pair_label df u v = edge_line (build_graph df) u v).
Proof.
  assert (E : edge_line (build_graph df) u v
              = option_map (fun r => normalize (Line r))
                           (find (joins u v) (rev df))).
  { rewrite build_graph_fold, edge_line_fold.
    destruct (find (joins u v) (rev df)); reflexivity. }
  split; [exact E|]. split; [apply pair_label_find|]. split.
  - rewrite !pair_label_find. f_equal. apply find_ext_in.
    intros r _. apply joins_sym.
  - intros Same. rewrite E, pair_label_find.
    destruct (find (joins u v) df) as [r|] eqn:F1;
      destruct (find (joins u v) (rev df)) as [r'|] eqn:F2; simpl; auto.
    + apply find_some in F1, F2. destruct F1 as [I1 J1], F2 as [I2 J2].
      apply in_rev in I2. f_equal. now apply Same.
    + apply find_some in F1. destruct F1 as [I1 J1].
      rewrite (find_none _ _ F2 r) in J1; [discriminate|].
      now apply -> in_rev.
    + apply find_some in F2. destruct F2 as [I2 J2]. apply in_rev in I2.
      rewrite (find_none _ _ F1 r' I2) in J2. discriminate.
Qed.

Lemma stored_and_resolved_label_witness :
  pair_lines df_untidy "A" "B" = [" red line"; "Red Line"]%string
  /\ pair_label df_untidy "A" "B"
     = edge_line (build_graph df_untidy) "A" "B".
Proof.
  split; [reflexivity|].
  apply (stored_and_resolved_label df_untidy "A" "B").
  intros r r' [<-|[<-|[<-|[<-|[]]]]] [<-|[<-|[<-|[<-|[]]]]] J1 J2;
    solve [reflexivity | discriminate].
Defined.

(** C9 as stated fails: the graph holds the later label for A-B, the
    interchange loop resolves the earlier one, and reports a change of line
    at B although both edges of the route carry the same stored label. *)
Lemma resolved_label_is_first_row :
  FindRoute (build_graph df_relabelled) "A" "C"
  = RouteFound ["A"; "B"; "C"]%string
  /\ edge_line (build_graph df_relabelled) "A" "B" = Some "Blue Line"%string
  /\ pair_label df_relabelled "A" "B" = Some "Red Line"%string
  /\ pair_label df_relabelled "A" "B"
     <> edge_line (build_graph df_relabelled) "A" "B"
  /\ interchanges df_relabelled ["A"; "B"; "C"]%string
     = [("B", "Red Line", "Blue Line")]%string.
Proof. repeat split; try reflexivity. discriminate. Qed.

Lemma station_lines_nth df p i :
  i < List.length p ->
  nth_error (station_lines df p) i
  = Some (markdown_station (i + 1) (at_ p i)
            (emoji_startswith (line_str df p (at_ p i)))
            (line_str df p (at_ p i))).
Proof.
  intros Hi. unfold station_lines.
  rewrite nth_error_map.
  assert (E : nth_error (combine (seq 0 (List.length p)) p) i
              = Some (i, at_ p i)).
  { rewrite (nth_error_nth' _ (0, ""%string))
      by (rewrite length_combine, length_seq; lia).
    rewrite combine_nth by (now rewrite length_seq).
    rewrite seq_nth by assumption. reflexivity. }
  now rewrite E.
Qed.

(** C8, as the code has it. The label shown beside a station of the path is
    the normalised [Line] of the first row of the dataframe that has this
    station at one end and a station of the path at the other; on a path
    returned by [FindRoute] there always is such a row. When no row joins a
    station to itself, that row is: for the first station, the first row
    joining it with the second station; for the last station, the first row
    joining it with the station before it; for a station in between, the
    first row joining it with the station before it or with the station
    after it, whichever comes first in the dataframe. In each case, when
    all rows joining that pair carry the same normalised label, the label
    shown is the one the graph stores for that edge. *)
Theorem displayed_line_label df source destination p :
  FindRoute (build_graph df) source destination = RouteFound p ->
  (forall i, i < List.length p ->
     nth_error (station_lines df p) i
     = Some (markdown_station (i + 1) (at_ p i)
               (emoji_startswith (line_str df p (at_ p i)))
               (line_str df p (at_ p i)))
     /\ exists r, first_row (touches_path p (at_ p i)) df r
                  /\ line_str df p (at_ p i) = normalize (Line r))
  /\ ((forall r, In r df -> Station r <> Connected_Station r) ->
      (exists r,
         first_row (joins (at_ p 0) (at_ p 1)) df r
         /\ line_str df p (at_ p 0) = normalize (Line r)
         /\ (same_label df (at_ p 0) (at_ p 1) ->
             Some (line_str df p (at_ p 0))
             = edge_line (build_graph df) (at_ p 0) (at_ p 1)))
      /\ (exists r,
            first_row (joins (at_ p (List.length p - 2))
                             (at_ p (List.length p - 1))) df r
            /\ line_str df p (at_ p (List.length p - 1)) = normalize (Line r)
            /\ (same_label df (at_ p (List.length p - 2))
                              (at_ p (List.length p - 1)) ->
                Some (line_str df p (at_ p (List.length p - 1)))
                = edge_line (build_graph df) (at_ p (List.length p - 2))
                            (at_ p (List.length p - 1))))
      /\ forall i, 1 <= i -> i + 1 < List.length p ->
           exists r,
             first_row (fun r => joins (at_ p (i - 1)) (at_ p i) r
                                 || joins (at_ p i) (at_ p (i + 1)) r) df r
             /\ line_str df p (at_ p i) = normalize (Line r)
             /\ ((first_row (joins (at_ p (i - 1)) (at_ p i)) df r
                  /\ (same_label df (at_ p (i - 1)) (at_ p i) ->
                      Some (line_str df p (at_ p i))
                      = edge_line (build_graph df) (at_ p (i - 1)) (at_ p i)))
                 \/ (first_row (joins (at_ p i) (at_ p (i + 1))) df r
                     /\ (same_label df (at_ p i) (at_ p (i + 1)) ->
                         Some (line_str df p (at_ p i))
                         = edge_line (build_graph df) (at_ p i)
                                     (at_ p (i + 1)))))).
Proof.
  intros F. pose proof (found_route_length df _ _ F) as L2.
  pose proof (FindRoute_RouteFound df _ _ F) as [_ [R _]].
  apply route_at in R. destruct R as [_ [_ [_ K]]].
  split.
  - intros i Hi. split; [now apply station_lines_nth|].
    rewrite line_str_find.
    assert (T : exists r, In r df /\ touches_path p (at_ p i) r = true).
    { destruct (Nat.eq_dec i 0) as [->|N].
      - assert (A : adj (build_graph df) (at_ p 0) (at_ p 1))
          by (apply (K 0); simpl; lia).
        apply adj_build in A. destruct A as [r [I J]]. exists r. split; auto.
        apply touches_path_spec. apply joins_spec in J.
        assert (In (at_ p 1) p) by (apply at_In; lia).
        destruct J as [[E1 E2]|[E1 E2]]; [left|right]; split; congruence.
      - assert (A : adj (build_graph df) (at_ p (i - 1)) (at_ p i)).
        { replace i with (i - 1 + 1) at 2 by lia. apply K. lia. }
        apply adj_build in A. destruct A as [r [I J]]. exists r. split; auto.
        apply touches_path_spec. apply joins_spec in J.
        assert (In (at_ p (i - 1)) p) by (apply at_In; lia).
        destruct J as [[E1 E2]|[E1 E2]]; [right|left]; split; congruence. }
    apply find_is_some in T.
    destruct (find (touches_path p (at_ p i)) df) as [r|] eqn:E;
      [|congruence].
    exists r. split; [now apply find_first_row|reflexivity].
  - intros NL.
    assert (B : forall i, i < List.length p ->
              line_str df p (at_ p i)
              = match find (beside p i) df with
                | Some r => normalize (Line r)
                | None => "N/A"%string
                end)
      by (intros i Hi; eapply line_str_beside; eauto).
    assert (Lab : forall i, i + 1 < List.length p ->
              exists r, find (joins (at_ p i) (at_ p (i + 1))) df = Some r).
    { intros i Hi. apply K, adj_build, find_is_some in Hi.
      destruct (find (joins (at_ p i) (at_ p (i + 1))) df); [eauto|congruence]. }
    assert (Stored : forall a b r l,
              first_row (joins a b) df r -> l = normalize (Line r) ->
              same_label df a b ->
              Some l = edge_line (build_graph df) a b).
    { intros a b r l Fr -> S. apply first_row_in in Fr. destruct Fr as [I J].
      symmetry. now apply stored_label_of_row. }
    split; [|split].
    + destruct (Lab 0) as [r Hr]; [simpl; lia|].
      change (0 + 1) with 1 in Hr.
      assert (E : line_str df p (at_ p 0) = normalize (Line r)).
      { rewrite B by lia.
        rewrite (find_ext_in (beside p 0) (joins (at_ p 0) (at_ p 1))).
        - now rewrite Hr.
        - intros x _. unfold beside. simpl.
          replace (1 <? List.length p) with true
            by (symmetry; apply Nat.ltb_lt; lia).
          reflexivity. }
      apply find_first_row in Hr. exists r. repeat split; auto.
      intros S. eapply Stored; eauto.
    + destruct (Lab (List.length p - 2)) as [r Hr]; [lia|].
      replace (List.length p - 2 + 1) with (List.length p - 1) in Hr by lia.
      assert (E : line_str df p (at_ p (List.length p - 1))
                  = normalize (Line r)).
      { rewrite B by lia.
        rewrite (find_ext_in (beside p (List.length p - 1))
                   (joins (at_ p (List.length p - 2))
                          (at_ p (List.length p - 1)))).
        - now rewrite Hr.
        - intros x _. unfold beside.
          replace (1 <=? List.length p - 1) with true
            by (symmetry; apply Nat.leb_le; lia).
          replace (List.length p - 1 + 1 <? List.length p) with false
            by (symmetry; apply Nat.ltb_ge; lia).
          replace (List.length p - 1 - 1) with (List.length p - 2) by lia.
          simpl. now rewrite orb_false_r. }
      apply find_first_row in Hr. exists r. repeat split; auto.
      intros S. eapply Stored; eauto.
    + intros i H1 H2.
      assert (E : forall r, In r df ->
                beside p i r
                = (joins (at_ p (i - 1)) (at_ p i) r
                   || joins (at_ p i) (at_ p (i + 1)) r)%bool).
      { intros r _. unfold beside.
        replace (1 <=? i) with true by (symmetry; apply Nat.leb_le; lia).
        replace (i + 1 <? List.length p) with true
          by (symmetry; apply Nat.ltb_lt; lia).
        reflexivity. }
      pose proof (B i ltac:(lia)) as Bi.
      rewrite (find_ext_in _ _ df E) in Bi.
      destruct (Lab i) as [r2 Hr2]; [lia|].
      assert (Ex : exists x, In x df
                   /\ (joins (at_ p (i - 1)) (at_ p i) x
                       || joins (at_ p i) (at_ p (i + 1)) x)%bool = true).
      { apply find_some in Hr2. destruct Hr2 as [I J]. exists r2.
        split; auto. rewrite J. apply orb_true_r. }
      apply (find_is_some
               (fun r => joins (at_ p (i - 1)) (at_ p i) r
                         || joins (at_ p i) (at_ p (i + 1)) r)%bool) in Ex.
      destruct (find (fun r => joins (at_ p (i - 1)) (at_ p i) r
                               || joins (at_ p i) (at_ p (i + 1)) r)%bool df)
        as [r|] eqn:Fr; [|congruence].
      apply find_first_row in Fr. exists r. split; [exact Fr|].
      split; [exact Bi|].
      destruct (first_row_in Fr) as [_ J]. apply orb_true_iff in J.
      destruct J as [J|J]; [left|right].
      * pose proof (first_row_orb_left _ _ Fr J) as F1. split; auto.
        intros S. eapply Stored; eauto.
      * pose proof (first_row_orb_right _ _ Fr J) as F2. split; auto.
        intros S. eapply Stored; eauto.
Qed.

Lemma displayed_line_label_witness :
  FindRoute (build_graph df_reordered) "A" "C"
  = RouteFound ["A"; "B"; "C"]%string
  /\ exists r,
       first_row (fun r => joins "A" "B" r || joins "B" "C" r) df_reordered r
       /\ line_str df_reordered ["A"; "B"; "C"]%string "B" = normalize (Line r)
       /\ ((first_row (joins "A" "B") df_reordered r
            /\ (same_label df_reordered "A" "B" ->
                Some (line_str df_reordered ["A"; "B"; "C"]%string "B")
                = edge_line (build_graph df_reordered) "A" "B"))
           \/ (first_row (joins "B" "C") df_reordered r
               /\ (same_label df_reordered "B" "C" ->
                   Some (line_str df_reordered ["A"; "B"; "C"]%string "B")
                   = edge_line (build_graph df_reordered) "B" "C"))).
Proof.
  split; [reflexivity|].
  destruct (@displayed_line_label df_reordered "A" "C"
              ["A"; "B"; "C"]%string eq_refl) as [_ Beside].
  assert (NL : forall r, In r df_reordered ->
                         Station r <> Connected_Station r)
    by (intros r [<-|[<-|[]]]; discriminate).
  destruct (Beside NL) as [_ [_ Between]].
  apply (Between 1); simpl; lia.
Defined.

(** C8 as stated fails: B is not the first station of the route, the edge
    that leads into it is A-B on the red line, and the label shown beside B
    is that of the edge that leaves it. *)
Lemma displayed_label_not_incoming :
  FindRoute (build_graph df_reordered) "A" "C"
  = RouteFound ["A"; "B"; "C"]%string
  /\ edge_line (build_graph df_reordered) "A" "B" = Some "Red Line"%string
  /\ pair_label df_reordered "A" "B" = Some "Red Line"%string
  /\ line_str df_reordered ["A"; "B"; "C"]%string "B" = "Blue Line"%string
  /\ nth_error (station_lines df_reordered ["A"; "B"; "C"]%string) 1
     = Some (markdown_station 2 "B" blue_circle "Blue Line").
Proof. repeat split; reflexivity. Qed.

(* ================================================================== *)
(** * Further properties of the code *)

(** ** [strip] and [title] *)

Lemma title_from_cons b c r :
  title_from b (String c r)
  = String (title_char b c) (title_from (cased c) r).
Proof.
  unfold title_char, cased. simpl.
  destruct (is_lower c); [reflexivity|]. destruct (is_upper c); reflexivity.
Qed.

Lemma title_char_facts (b : bool) (c : ascii) :
  is_space (title_char b c) = is_space c
  /\ title_char b (title_char b c) = title_char b c
  /\ cased (title_char b c) = cased c
  /\ (is_space c = true -> cased c = false).
Proof.
  destruct b; destruct c as [[] [] [] [] [] [] [] []];
    repeat split; try reflexivity; intros H; discriminate H.
Qed.

Lemma title_from_idem s : forall b,
  title_from b (title_from b s) = title_from b s.
Proof.
  induction s as [|c r IH]; intros b; [reflexivity|].
  destruct (title_char_facts b c) as [_ [E1 [E2 _]]].
  now rewrite !title_from_cons, E1, E2, IH.
Qed.

Lemma lstrip_title s :
  lstrip (title_from false s) = title_from false (lstrip s).
Proof.
  induction s as [|c r IH]; [reflexivity|].
  destruct (title_char_facts false c) as [S [_ [_ Sp]]].
  rewrite title_from_cons. simpl lstrip. rewrite S.
  destruct (is_space c) eqn:Hc.
  - now rewrite (Sp eq_refl).
  - now rewrite title_from_cons.
Qed.

Lemma rstrip_title s : forall b,
  rstrip (title_from b s) = title_from b (rstrip s).
Proof.
  induction s as [|c r IH]; intros b; [reflexivity|].
  destruct (title_char_facts b c) as [S _].
  rewrite title_from_cons. simpl rstrip. rewrite IH, S.
  destruct (rstrip r) as [|x y].
  - simpl title_from at 1. destruct (is_space c); [reflexivity|].
    now rewrite title_from_cons.
  - rewrite (title_from_cons b c). rewrite (title_from_cons (cased c) x y).
    reflexivity.
Qed.

Lemma strip_title s : strip (title s) = title (strip s).
Proof. unfold strip, title. now rewrite lstrip_title, rstrip_title. Qed.

Lemma lstrip_head s : head_space (lstrip s) = false.
Proof.
  induction s as [|c r IH]; [reflexivity|]. simpl.
  destruct (is_space c) eqn:E; [exact IH|]. simpl. exact E.
Qed.

Lemma lstrip_fixed s : head_space s = false -> lstrip s = s.
Proof. destruct s as [|c r]; simpl; [reflexivity|]. now intros ->. Qed.

Lemma rstrip_last s : last_space (rstrip s) = false.
Proof.
  induction s as [|c r IH]; [reflexivity|]. simpl.
  destruct (rstrip r) as [|x y] eqn:R.
  - destruct (is_space c) eqn:E; [reflexivity|]. simpl. exact E.
  - exact IH.
Qed.

Lemma rstrip_fixed s : last_space s = false -> rstrip s = s.
Proof.
  induction s as [|c r IH]; [reflexivity|]. intros H. simpl.
  destruct r as [|x y].
  - simpl in *. now rewrite H.
  - rewrite IH by exact H. reflexivity.
Qed.

Lemma rstrip_head s : head_space s = false -> head_space (rstrip s) = false.
Proof.
  destruct s as [|c r]; simpl; [reflexivity|]. intros H.
  destruct (rstrip r); [rewrite H|]; simpl; auto.
Qed.

Lemma lstrip_split s :
  exists pre, s = (pre ++ lstrip s)%string /\ all_space pre = true.
Proof.
  induction s as [|c r [pre [E A]]].
  - exists EmptyString. split; reflexivity.
  - simpl. destruct (is_space c) eqn:Hc.
    + exists (String c pre). simpl. rewrite Hc, A. split; [congruence|reflexivity].
    + exists EmptyString. split; reflexivity.
Qed.

Lemma rstrip_split s :
  exists post, s = (rstrip s ++ post)%string /\ all_space post = true.
Proof.
  induction s as [|c r [post [E A]]].
  - exists EmptyString. split; reflexivity.
  - simpl. destruct (rstrip r) as [|x y] eqn:R.
    + destruct (is_space c) eqn:Hc.
      * exists (String c post). simpl in *. rewrite Hc, A.
        split; [congruence|reflexivity].
      * exists post. simpl in *. split; [congruence|assumption].
    + exists post. simpl in *. split; [congruence|assumption].
Qed.

Lemma strip_fixed s :
  head_space s = false -> last_space s = false -> strip s = s.
Proof.
  intros H L. unfold strip. now rewrite (lstrip_fixed s H), rstrip_fixed.
Qed.

Lemma strip_ends s :
  head_space (strip s) = false /\ last_space (strip s) = false.
Proof.
  unfold strip. split; [apply rstrip_head, lstrip_head | apply rstrip_last].
Qed.

Lemma normalize_fixed s : normalize (normalize s) = normalize s.
Proof.
  unfold normalize. rewrite strip_title.
  destruct (strip_ends s) as [H L]. rewrite (strip_fixed _ H L).
  unfold title. now rewrite title_from_idem.
Qed.

Lemma title_from_length s : forall b,
  String.length (title_from b s) = String.length s.
Proof.
  induction s as [|c r IH]; intros b; [reflexivity|].
  rewrite title_from_cons. simpl. now rewrite IH.
Qed.

(** X1. Normalising a label twice gives the same label as normalising it
    once, and [strip] and [title] can be applied in either order. *)
Theorem normalize_idempotent s :
  normalize (normalize s) = normalize s
  /\ strip (title s) = title (strip s).
Proof. split; [apply normalize_fixed | apply strip_title]. Qed.

(** X2. On ASCII text [strip] removes a run of whitespace at the front and
    one at the back and nothing else: the text is whitespace, then the
    result, then whitespace, and the result neither starts nor ends with
    whitespace. *)
Theorem strip_removes_outer_whitespace s :
  is_ascii s = true ->
  exists pre post,
    s = (pre ++ strip s ++ post)%string
    /\ all_space pre = true /\ all_space post = true
    /\ head_space (strip s) = false /\ last_space (strip s) = false.
Proof.
  intros _.
  destruct (lstrip_split s) as [pre [E1 A1]].
  destruct (rstrip_split (lstrip s)) as [post [E2 A2]].
  destruct (strip_ends s) as [H L].
  exists pre, post. unfold strip in *. repeat split; auto.
  rewrite <- E2. exact E1.
Qed.

Lemma strip_removes_outer_whitespace_witness :
  is_ascii "  blue line " = true
  /\ exists pre post,
       "  blue line "%string
       = (pre ++ strip "  blue line " ++ post)%string
       /\ all_space pre = true /\ all_space post = true
       /\ head_space (strip "  blue line ") = false
       /\ last_space (strip "  blue line ") = false.
Proof.
  split; [reflexivity|].
  apply (strip_removes_outer_whitespace "  blue line "). reflexivity.
Defined.

(** X3. [title] keeps the length of the text and changes nothing in a text
    that is already in title case. *)
Theorem title_keeps_length s :
  String.length (title s) = String.length s
  /\ title (title s) = title s.
Proof.
  unfold title. split; [apply title_from_length | apply title_from_idem].
Qed.

(** ** The graph *)

Lemma edge_line_build df u v :
  edge_line (build_graph df) u v
  = option_map (fun r => normalize (Line r)) (find (joins u v) (rev df)).
Proof.
  rewrite build_graph_fold, edge_line_fold.
  destruct (find (joins u v) (rev df)); reflexivity.
Qed.

(** X4. The graph is undirected: an edge carries the same label whichever
    end it is read from. *)
Theorem edge_line_symmetric df u v :
  edge_line (build_graph df) u v = edge_line (build_graph df) v u.
Proof.
  rewrite !edge_line_build. f_equal. apply find_ext_in.
  intros r _. apply joins_sym.
Qed.

(** X5. A label held by the graph is the normalised [Line] of a row that
    joins the two stations; when that [Line] is ASCII text, normalising the
    label again changes nothing. *)
Theorem edge_line_from_row df u v l :
  edge_line (build_graph df) u v = Some l ->
  exists r, In r df /\ joins u v r = true /\ l = normalize (Line r)
            /\ (is_ascii (Line r) = true -> normalize l = l).
Proof.
  rewrite edge_line_build. intros H.
  destruct (find (joins u v) (rev df)) as [r|] eqn:F; [|discriminate].
  simpl in H. injection H as <-. apply find_some in F. destruct F as [I J].
  apply in_rev in I. exists r. repeat split; auto.
  intros _. apply normalize_fixed.
Qed.

Lemma edge_line_from_row_witness :
  edge_line (build_graph df_untidy) "B" "C" = Some "Red Line"%string
  /\ exists r, In r df_untidy /\ joins "B" "C" r = true
               /\ "Red Line"%string = normalize (Line r)
               /\ (is_ascii (Line r) = true
                   -> normalize "Red Line" = "Red Line"%string).
Proof.
  split; [reflexivity|].
  apply (@edge_line_from_row df_untidy "B" "C" "Red Line"). reflexivity.
Defined.

Lemma node_has_neighbor df u :
  In u (nodes (build_graph df)) -> exists v, adj (build_graph df) u v.
Proof.
  rewrite in_nodes_build. intros [r [I [E|E]]].
  - exists (Connected_Station r). apply adj_build. exists r. split; auto.
    apply joins_spec. auto.
  - exists (Station r). apply adj_build. exists r. split; auto.
    apply joins_spec. auto.
Qed.

(** X6. The graph lists no station twice, both ends of every edge are
    nodes, every node has at least one neighbour, and the graph has as many
    nodes as the station list has entries. *)
Theorem graph_nodes_invariant df :
  NoDup (nodes (build_graph df))
  /\ (forall u v, adj (build_graph df) u v ->
        In u (nodes (build_graph df)) /\ In v (nodes (build_graph df)))
  /\ (forall u, In u (nodes (build_graph df)) ->
        neighbors (build_graph df) u <> [])
  /\ List.length (nodes (build_graph df)) = List.length (stations df).
Proof.
  split; [apply NoDup_nodes_build|]. split; [apply adj_build_nodes|]. split.
  - intros u Hu E. destruct (node_has_neighbor df u Hu) as [v A].
    unfold adj in A. rewrite E in A. destruct A.
  - apply Nat.le_antisymm; apply NoDup_incl_length.
    + apply NoDup_nodes_build.
    + intros x. apply stations_nodes.
    + apply StronglySorted_NoDup, stations_sorted.
    + intros x. apply stations_nodes.
Qed.

(** X7. The station list is empty exactly when the dataframe has no rows,
    and it never has more than two entries per row. *)
Theorem stations_empty_iff df :
  (stations df = [] <-> df = [])
  /\ List.length (stations df) <= 2 * List.length df.
Proof.
  split.
  - split.
    + intros E. destruct df as [|r df]; auto.
      assert (H : In (Station r) (stations (r :: df)))
        by (apply in_stations; left; simpl; auto).
      rewrite E in H. destruct H.
    + intros ->. reflexivity.
  - assert (L : List.length (stations df)
                <= List.length (map Station df ++ map Connected_Station df)).
    { apply NoDup_incl_length.
      - apply StronglySorted_NoDup, stations_sorted.
      - intros x Hx. apply in_or_app. now apply in_stations. }
    rewrite length_app, !length_map in L. lia.
Qed.

(** ** Found routes *)

Lemma shortest_route_NoDup G s d p :
  route G s d p ->
  (forall q, route G s d q -> hops p <= hops q) ->
  NoDup p.
Proof.
  intros R M. pose proof R as R0. apply route_at in R0.
  destruct R0 as [L [H0 [_ K]]].
  assert (Cut : forall i j, i < j -> j < List.length p ->
            at_ p i = at_ p j -> False).
  { intros i j Hij Hj E.
    assert (R' : route G s d (splice i j p)).
    { apply splice_route; auto; try lia.
      - intros ->. now rewrite <- E.
      - intros Hi. rewrite <- E.
        replace i with (i - 1 + 1) at 2 by lia. apply K. lia. }
    apply M in R'. unfold hops in R'.
    rewrite splice_length in R' by lia. lia. }
  apply (NoDup_nth p ""%string). intros i j Hi Hj E.
  destruct (Nat.lt_trichotomy i j) as [H|[H|H]]; auto; exfalso.
  - apply (Cut i j); auto.
  - apply (Cut j i); auto.
Qed.

Lemma route_in_nodes df s d p x :
  route (build_graph df) s d p -> 2 <= List.length p ->
  In x p -> In x (nodes (build_graph df)).
Proof.
  intros R L Hx. apply route_at in R. destruct R as [_ [_ [_ K]]].
  apply In_at in Hx. destruct Hx as [i [Hi <-]].
  destruct (Nat.lt_ge_cases (i + 1) (List.length p)) as [H|H].
  - apply K in H. now apply adj_build_nodes in H.
  - assert (A : adj (build_graph df) (at_ p (i - 1)) (at_ p (i - 1 + 1)))
      by (apply K; lia).
    replace (i - 1 + 1) with i in A by lia. now apply adj_build_nodes in A.
Qed.

Lemma nodes_stations_length df :
  List.length (nodes (build_graph df)) = List.length (stations df).
Proof.
  apply Nat.le_antisymm; apply NoDup_incl_length.
  - apply NoDup_nodes_build.
  - intros x. apply stations_nodes.
  - apply StronglySorted_NoDup, stations_sorted.
  - intros x. apply stations_nodes.
Qed.

(** X8. A route returned by [FindRoute] passes no station twice, passes
    only stations of the station list, and has at least one stop and at
    most one less than the number of stations. *)
Theorem found_route_simple df source destination p :
  FindRoute (build_graph df) source destination = RouteFound p ->
  NoDup p
  /\ (forall x, In x p -> In x (stations df))
  /\ 1 <= List.length p - 1
  /\ List.length p - 1 <= List.length (stations df) - 1.
Proof.
  intros F. pose proof (found_route_length df _ _ F) as L.
  apply FindRoute_RouteFound in F. destruct F as [_ [R M]].
  pose proof (shortest_route_NoDup R M) as ND.
  assert (I : forall x, In x p -> In x (nodes (build_graph df)))
    by (intros x; eapply route_in_nodes; eauto).
  repeat split; auto.
  - intros x Hx. apply stations_nodes. auto.
  - lia.
  - rewrite <- nodes_stations_length.
    pose proof (NoDup_incl_length ND I). unfold station in *. lia.
Qed.

Lemma found_route_simple_witness :
  FindRoute (build_graph df_scenario) "A" "D"
  = RouteFound ["A"; "B"; "C"; "D"]%string
  /\ NoDup ["A"; "B"; "C"; "D"]%string
  /\ (forall x, In x ["A"; "B"; "C"; "D"]%string -> In x (stations df_scenario))
  /\ 1 <= 4 - 1
  /\ 4 - 1 <= List.length (stations df_scenario) - 1.
Proof.
  split; [reflexivity|].
  apply (@found_route_simple df_scenario "A" "D" ["A"; "B"; "C"; "D"]%string).
  reflexivity.
Defined.

Lemma at_rev (p : path) i :
  i < List.length p -> at_ (rev p) i = at_ p (List.length p - 1 - i).
Proof.
  intros H. unfold at_. rewrite rev_nth by assumption. f_equal. lia.
Qed.

Lemma route_rev G s d p :
  (forall u v, adj G u v -> adj G v u) ->
  route G s d p -> route G d s (rev p).
Proof.
  intros Sym R. apply route_at in R. destruct R as [L [H0 [H1 K]]].
  apply route_at. rewrite length_rev. repeat split; auto.
  - rewrite at_rev by lia. now rewrite Nat.sub_0_r.
  - rewrite at_rev by lia. now replace (List.length p - 1 - (List.length p - 1)) with 0 by lia.
  - intros i Hi. rewrite !at_rev by lia. apply Sym.
    replace (List.length p - 1 - i) with (List.length p - 1 - (i + 1) + 1)
      by lia.
    apply K. lia.
Qed.

(** X9. The search is symmetric: when a route is found from A to B, a route
    is found from B to A as well, with the same number of stations, hence
    the same stops and the same estimated time. *)
Theorem FindRoute_symmetric df source destination p :
  FindRoute (build_graph df) source destination = RouteFound p ->
  exists p',
    FindRoute (build_graph df) destination source = RouteFound p'
    /\ List.length p' = List.length p.
Proof.
  intros F. pose proof (found_route_length df _ _ F) as L.
  apply FindRoute_RouteFound in F. destruct F as [N [R M]].
  pose proof (route_rev (@adj_build_sym df) R) as R'.
  destruct (@FindRoute_found df destination source (rev p)) as [p' [F' [Rp' M']]];
    auto.
  exists p'. split; auto.
  pose proof (M' _ R') as H1.
  pose proof (M _ (route_rev (@adj_build_sym df) Rp')) as H2.
  apply route_at in Rp'. destruct Rp' as [L' _].
  unfold hops in *. rewrite length_rev in *. lia.
Qed.

Lemma FindRoute_symmetric_witness :
  FindRoute (build_graph df_scenario) "A" "D"
  = RouteFound ["A"; "B"; "C"; "D"]%string
  /\ exists p',
       FindRoute (build_graph df_scenario) "D" "A" = RouteFound p'
       /\ List.length p' = 4.
Proof.
  split; [reflexivity|].
  apply (@FindRoute_symmetric df_scenario "A" "D" ["A"; "B"; "C"; "D"]%string).
  reflexivity.
Defined.

(** X10. For two stations of the station list the handler has exactly three
    outcomes, each decided by the input: the same-station warning exactly
    when the two are equal; the no-path error exactly when they differ and
    no route joins them; a route exactly when they differ and some route
    joins them. *)
Theorem FindRoute_outcomes df source destination :
  In source (stations df) -> In destination (stations df) ->
  (FindRoute (build_graph df) source destination = SameStationError
   <-> source = destination)
  /\ (FindRoute (build_graph df) source destination = NoPathError
      <-> source <> destination
          /\ forall q, ~ route (build_graph df) source destination q)
  /\ ((exists p, FindRoute (build_graph df) source destination = RouteFound p)
      <-> source <> destination
          /\ exists q, route (build_graph df) source destination q).
Proof.
  intros Hs Hd. apply stations_nodes in Hs, Hd.
  destruct (string_dec source destination) as [E|N].
  - assert (F : FindRoute (build_graph df) source destination
                = SameStationError).
    { unfold FindRoute. apply String.eqb_eq in E. now rewrite E. }
    rewrite F. split; [split; auto|]. split.
    + split; [discriminate | intros [N' _]; contradiction].
    + split; [intros [p H]; discriminate | intros [N' _]; contradiction].
  - assert (Found : forall q, route (build_graph df) source destination q ->
              exists p, FindRoute (build_graph df) source destination
                        = RouteFound p).
    { intros q R. destruct (@FindRoute_found df _ _ _ N R) as [p [F _]]. eauto. }
    assert (Shape : FindRoute (build_graph df) source destination = NoPathError
                    \/ exists p, FindRoute (build_graph df) source destination
                                 = RouteFound p).
    { unfold FindRoute. pose proof N as N'. apply String.eqb_neq in N'.
      rewrite N', shortest_path_nodes by assumption.
      destruct (Dict.get destination _); eauto. }
    split; [|split].
    + split; [|contradiction]. destruct Shape as [F|[p F]]; rewrite F; discriminate.
    + split.
      * intros F. split; auto. intros q R. apply Found in R.
        destruct R as [p F']. congruence.
      * intros [_ U]. destruct Shape as [F|[p F]]; auto.
        apply FindRoute_RouteFound in F. destruct F as [_ [R _]].
        now apply U in R.
    + split.
      * intros [p F]. split; auto. apply FindRoute_RouteFound in F.
        destruct F as [_ [R _]]. eauto.
      * intros [_ [q R]]. eauto.
Qed.

Lemma FindRoute_outcomes_witness :
  (FindRoute (build_graph df_islands) "X" "Y" = SameStationError
   <-> "X"%string = "Y"%string)
  /\ (FindRoute (build_graph df_islands) "X" "Y" = NoPathError
      <-> "X"%string <> "Y"%string
          /\ forall q, ~ route (build_graph df_islands) "X" "Y" q)
  /\ ((exists p, FindRoute (build_graph df_islands) "X" "Y" = RouteFound p)
      <-> "X"%string <> "Y"%string
          /\ exists q, route (build_graph df_islands) "X" "Y" q).
Proof.
  apply (@FindRoute_outcomes df_islands "X" "Y"); vm_compute; tauto.
Defined.

Lemma linked_mono G G' p :
  (forall u v, adj G u v -> adj G' u v) -> linked G p -> linked G' p.
Proof.
  intros H. rewrite !linked_at. intros K i Hi. apply H, K, Hi.
Qed.

(** X11. Rows can only help: when every row of one dataframe is a row of
    another and a route is found over the first, a route is found over the
    second, and it has no more stations. In particular the number of stops
    does not depend on the order of the rows. *)
Theorem FindRoute_more_rows df df' source destination p :
  incl df df' ->
  FindRoute (build_graph df) source destination = RouteFound p ->
  exists p',
    FindRoute (build_graph df') source destination = RouteFound p'
    /\ List.length p' <= List.length p.
Proof.
  intros I F. apply FindRoute_RouteFound in F. destruct F as [N [R M]].
  assert (R' : route (build_graph df') source destination p).
  { destruct R as [Hh [Hl Hk]]. repeat split; auto.
    apply linked_mono with (G := build_graph df); auto.
    intros u v A. apply adj_build in A. destruct A as [r [Hr J]].
    apply adj_build. exists r. split; auto. }
  destruct (@FindRoute_found df' _ _ _ N R') as [p' [F' [Rp' M']]].
  exists p'. split; auto. pose proof (M' _ R') as H.
  apply route_at in Rp', R'. destruct Rp' as [L' _], R' as [L _].
  unfold hops, station in *. lia.
Qed.

Lemma FindRoute_more_rows_witness :
  incl df_reordered (rev df_reordered)
  /\ FindRoute (build_graph df_reordered) "A" "C"
     = RouteFound ["A"; "B"; "C"]%string
  /\ exists p',
       FindRoute (build_graph (rev df_reordered)) "A" "C" = RouteFound p'
       /\ List.length p' <= 3.
Proof.
  assert (I : incl df_reordered (rev df_reordered))
    by (intros r H; now apply -> in_rev).
  split; [exact I|]. split; [reflexivity|].
  apply (@FindRoute_more_rows df_reordered (rev df_reordered) "A" "C"
           ["A"; "B"; "C"]%string I).
  reflexivity.
Defined.

(** ** The annotation of any path *)

Lemma interchange_at_length df p i : List.length (interchange_at df p i) <= 1.
Proof.
  rewrite interchange_at_labels.
  destruct (pair_label df (at_ p (i - 1)) (at_ p i)); simpl; auto.
  destruct (pair_label df (at_ p i) (at_ p (i + 1))) as [b|]; simpl; auto.
  destruct (String.eqb s b); simpl; auto.
Qed.

Lemma flat_map_length_le {A B} (f : A -> list B) l :
  (forall x, List.length (f x) <= 1) ->
  List.length (flat_map f l) <= List.length l.
Proof.
  intros H. induction l as [|x l IH]; simpl; auto.
  rewrite length_app. specialize (H x). lia.
Qed.

(** X12. Whatever the path and the rows, an entry of the interchange list
    names an interior station of the path and two different labels, and the
    list has at most one entry per interior station; a path of one or two
    stations has none. *)
Theorem interchanges_well_formed df p :
  (forall st a b, In (st, a, b) (interchanges df p) ->
     a <> b /\ exists i, 1 <= i /\ i + 1 < List.length p /\ st = at_ p i)
  /\ List.length (interchanges df p) <= List.length p - 2
  /\ (List.length p <= 2 -> interchanges df p = []).
Proof.
  rewrite interchanges_flat_map. split; [|split].
  - intros st a b H. apply in_flat_map in H. destruct H as [i [Hi H]].
    apply in_seq in Hi. rewrite interchange_at_labels in H.
    destruct (pair_label df (at_ p (i - 1)) (at_ p i)) as [a'|]; [|destruct H].
    destruct (pair_label df (at_ p i) (at_ p (i + 1))) as [b'|]; [|destruct H].
    destruct (String.eqb a' b') eqn:E; [destruct H|].
    destruct H as [[= <- <- <-]|[]]. apply String.eqb_neq in E.
    split; auto. exists i. unfold station in *. repeat split; lia.
  - pose proof (flat_map_length_le (interchange_at df p)
                  (seq 1 (List.length p - 2))
                  (interchange_at_length df p)) as H.
    now rewrite length_seq in H.
  - intros L. replace (List.length p - 2) with 0 by lia. reflexivity.
Qed.

Lemma interchanges_well_formed_witness :
  interchanges df_scenario ["A"; "B"]%string = [].
Proof.
  apply (interchanges_well_formed df_scenario ["A"; "B"]%string).
  simpl. lia.
Defined.

Lemma Annotate_events df p e :
  In e (Annotate df p) ->
  e = success_total_stops (List.length p - 1)
  \/ e = markdown_route_path
  \/ (exists n st em l, e = markdown_station n st em l)
  \/ e = info_estimated_time ((List.length p - 1) * 2)
  \/ (e = info_no_interchanges /\ interchanges df p = [])
  \/ (e = markdown_interchanges /\ interchanges df p <> [])
  \/ (exists st a b, e = warning_interchange st (emoji_get a) a (emoji_get b) b
                     /\ In (st, a, b) (interchanges df p)).
Proof.
  unfold Annotate. simpl. rewrite !in_app_iff. simpl.
  intros [H|[H|[H|[H|H]]]]; auto.
  - right. right. left. unfold station_lines in H. apply in_map_iff in H.
    destruct H as [[i st] [<- _]]. eauto.
  - do 4 right. unfold interchange_lines in H.
    destruct (interchanges df p) as [|x l].
    + destruct H as [<-|[]]. auto.
    + right. destruct H as [<-|H].
      * left. split; [reflexivity|discriminate].
      * right. apply in_map_iff in H. destruct H as [[[st a] b] [<- I]].
        eauto.
Qed.

Lemma no_interchange_event df p :
  In info_no_interchanges (Annotate df p) <-> interchanges df p = [].
Proof.
  split.
  - intros H. apply Annotate_events in H.
    destruct H as [H|[H|[[? [? [? [? H]]]]|[H|[[_ H]|[[H _]|[? [? [? [H _]]]]]]]]]];
      try discriminate; auto.
  - intros E. unfold Annotate. rewrite E. simpl.
    right. right. rewrite in_app_iff. right. simpl. auto.
Qed.

Lemma interchanges_nil_iff df s d p :
  FindRoute (build_graph df) s d = RouteFound p ->
  interchanges df p = []
  <-> forall i, 1 <= i -> i + 1 < List.length p ->
        pair_label df (at_ p (i - 1)) (at_ p i)
        = pair_label df (at_ p i) (at_ p (i + 1)).
Proof.
  intros F. rewrite interchanges_flat_map. split.
  - intros E i H1 H2.
    assert (Ei : interchange_at df p i = []).
    { destruct (interchange_at df p i) as [|x l] eqn:Ei; auto.
      assert (In x (flat_map (interchange_at df p)
                             (seq 1 (List.length p - 2)))).
      { apply in_flat_map. exists i. split; [apply in_seq; lia|].
        rewrite Ei. now left. }
      rewrite E in H. destruct H. }
    destruct (@found_route_labels df s d p F (i - 1)) as [a Ha]; [lia|].
    destruct (@found_route_labels df s d p F i) as [b Hb]; [lia|].
    replace (i - 1 + 1) with i in Ha by lia.
    rewrite interchange_at_labels, Ha, Hb in Ei. rewrite Ha, Hb.
    destruct (String.eqb a b) eqn:E'; [|discriminate].
    apply String.eqb_eq in E'. congruence.
  - intros H. apply flat_map_nil. intros j Hj. apply in_seq in Hj.
    rewrite interchange_at_labels, H by lia.
    destruct (pair_label df (at_ p j) (at_ p (j + 1))); auto.
    now rewrite String.eqb_refl.
Qed.

(** X13. After a successful search the page says that no interchange is
    required exactly when every two consecutive edges of the route resolve
    to the same label. *)
Theorem no_interchange_message df source destination p :
  FindRoute (build_graph df) source destination = RouteFound p ->
  In info_no_interchanges (fst (get_route df source destination))
  <-> forall i, 1 <= i -> i + 1 < List.length p ->
        pair_label df (at_ p (i - 1)) (at_ p i)
        = pair_label df (at_ p i) (at_ p (i + 1)).
Proof.
  intros F. unfold get_route. rewrite F. simpl fst.
  rewrite no_interchange_event. now apply interchanges_nil_iff with (s := source) (d := destination).
Qed.

Lemma no_interchange_message_witness :
  FindRoute (build_graph df_scenario) "A" "C" = RouteFound ["A"; "B"; "C"]%string
  /\ (In info_no_interchanges (fst (get_route df_scenario "A" "C"))
      <-> forall i, 1 <= i -> i + 1 < 3 ->
            pair_label df_scenario (at_ ["A"; "B"; "C"]%string (i - 1))
                       (at_ ["A"; "B"; "C"]%string i)
            = pair_label df_scenario (at_ ["A"; "B"; "C"]%string i)
                         (at_ ["A"; "B"; "C"]%string (i + 1))).
Proof.
  split; [reflexivity|].
  apply (@no_interchange_message df_scenario "A" "C" ["A"; "B"; "C"]%string).
  reflexivity.
Defined.

(** X14. The route list shows one entry per station of the path, in the
    order of the path, numbered from 1. *)
Theorem station_lines_in_order df p :
  List.length (station_lines df p) = List.length p
  /\ forall i, i < List.length p ->
       exists e l, nth_error (station_lines df p) i
                   = Some (markdown_station (i + 1) (at_ p i) e l).
Proof.
  split.
  - unfold station_lines.
    rewrite length_map, length_combine, length_seq. apply Nat.min_id.
  - intros i Hi. rewrite station_lines_nth by assumption. eauto.
Qed.

Lemma station_lines_in_order_witness :
  exists e l, nth_error (station_lines df_scenario ["A"; "B"; "C"; "D"]%string) 2
              = Some (markdown_station 3 "C" e l).
Proof.
  apply (station_lines_in_order df_scenario ["A"; "B"; "C"; "D"]%string).
  simpl. lia.
Defined.

(** X15. The two emoji lookups agree on every label that the exact lookup
    of the interchange list knows: whenever [line_colors.get] finds an
    emoji, the prefix lookup of the route list shows the same one. *)
Theorem emoji_lookups_agree label :
  emoji_get label <> white_circle ->
  emoji_startswith label = emoji_get label.
Proof.
  unfold emoji_get, line_colors. cbn [find].
  repeat match goal with
         | |- context [String.eqb ?k label] =>
             let E := fresh "E" in
             destruct (String.eqb k label) eqn:E;
             [apply String.eqb_eq in E; subst label; intros _; reflexivity|]
         end.
  intros H. exfalso. now apply H.
Qed.

Lemma emoji_lookups_agree_witness :
  emoji_get "Grey Line" <> white_circle
  /\ emoji_startswith "Grey Line" = emoji_get "Grey Line".
Proof.
  assert (H : emoji_get "Grey Line" <> white_circle) by discriminate.
  split; [exact H|]. apply (emoji_lookups_agree "Grey Line" H).
Defined.

(** ** Loading *)

(** X16. When the file cannot be read, or has no rows, the route finder
    shows the empty-file error and nothing else, whatever is selected; with
    at least one row that error is never shown. *)
Theorem empty_file_error df source destination :
  route_finder (load_data None) source destination
  = ([error_empty_file], None)
  /\ (In error_empty_file (fst (route_finder df source destination))
      <-> df = []).
Proof.
  split; [reflexivity|]. split.
  - destruct df as [|r df]; auto. unfold route_finder, get_route. simpl empty.
    cbv iota.
    destruct (FindRoute (build_graph (r :: df)) source destination) as [p| | |e];
      simpl.
    + intros H. apply Annotate_events in H.
      destruct H as [H|[H|[[? [? [? [? H]]]]|[H|[[H _]|[[H _]|[? [? [? [H _]]]]]]]]]];
        discriminate.
    + intros [H|[]]. discriminate.
    + intros [H|[]]. discriminate.
    + intros [].
  - intros ->. simpl. auto.
Qed.

(** ** The station list again *)

Lemma StronglySorted_unique l1 : forall l2,
  StronglySorted str_lt l1 -> StronglySorted str_lt l2 ->
  (forall x, In x l1 <-> In x l2) -> l1 = l2.
Proof.
  induction l1 as [|x t1 IH]; intros [|y t2] S1 S2 E; auto.
  - destruct (proj2 (E y)). now left.
  - destruct (proj1 (E x)). now left.
  - apply StronglySorted_inv in S1, S2.
    destruct S1 as [S1 F1], S2 as [S2 F2]. rewrite Forall_forall in F1, F2.
    assert (x = y) as <-.
    { destruct (proj1 (E x) (or_introl eq_refl)) as [->|Hx]; auto.
      destruct (proj2 (E y) (or_introl eq_refl)) as [->|Hy]; auto.
      exfalso. apply (@str_lt_irrefl x).
      eapply str_lt_trans; [apply F1, Hy | apply F2, Hx]. }
    f_equal. apply IH; auto. intros z. split; intros Hz.
    + destruct (proj1 (E z) (or_intror Hz)) as [<-|H]; auto.
      exfalso. apply (@str_lt_irrefl x). now apply F1.
    + destruct (proj2 (E z) (or_intror Hz)) as [<-|H]; auto.
      exfalso. apply (@str_lt_irrefl x). now apply F2.
Qed.

(** X17. The station list depends only on which names occur in the two
    station columns: two dataframes with the same names give the same list,
    whatever the order and the repetition of their rows. *)
Theorem stations_canonical df df' :
  (forall x, In x (map Station df) \/ In x (map Connected_Station df)
             <-> In x (map Station df') \/ In x (map Connected_Station df')) ->
  stations df = stations df'.
Proof.
  intros E. apply StronglySorted_unique; try apply stations_sorted.
  intros x. now rewrite !in_stations.
Qed.

Lemma stations_canonical_witness :
  stations df_relabelled = stations (rev df_relabelled).
Proof.
  apply (stations_canonical df_relabelled (rev df_relabelled)).
  intros x. rewrite !map_rev, <- !in_rev. reflexivity.
Defined.

(** ** Annotating a path backwards *)

Lemma pair_label_sym df a b : pair_label df a b = pair_label df b a.
Proof.
  rewrite !pair_label_find. f_equal. apply find_ext_in.
  intros r _. apply joins_sym.
Qed.

Lemma flat_map_mirror {A} (f g : nat -> list A) m : forall a b,
  (forall i, a <= i -> i < a + m -> g i = rev (f (a + b + m - 1 - i))) ->
  flat_map g (seq a m) = rev (flat_map f (seq b m)).
Proof.
  induction m as [|m IH]; intros a b H; [reflexivity|].
  rewrite (seq_S m b), flat_map_app, rev_app_distr.
  change (seq a (S m)) with (a :: seq (S a) m).
  simpl flat_map. rewrite app_nil_r. f_equal.
  - rewrite H by lia. do 2 f_equal. lia.
  - apply IH. intros i H1 H2. rewrite H by lia. do 2 f_equal. lia.
Qed.

Lemma interchange_at_rev df p i :
  1 <= i -> i + 1 < List.length p ->
  interchange_at df (rev p) i
  = rev (map reverse_interchange
             (interchange_at df p (List.length p - 1 - i))).
Proof.
  intros H1 H2. rewrite !interchange_at_labels, !at_rev by lia.
  replace (List.length p - 1 - (i - 1)) with (List.length p - 1 - i + 1)
    by lia.
  replace (List.length p - 1 - (i + 1)) with (List.length p - 1 - i - 1)
    by lia.
  set (j := List.length p - 1 - i).
  rewrite (pair_label_sym df (at_ p (j + 1)) (at_ p j)).
  rewrite (pair_label_sym df (at_ p j) (at_ p (j - 1))).
  destruct (pair_label df (at_ p (j - 1)) (at_ p j)) as [a|];
    destruct (pair_label df (at_ p j) (at_ p (j + 1))) as [b|];
    try reflexivity.
  rewrite (String.eqb_sym b a). destruct (String.eqb a b); reflexivity.
Qed.

Lemma map_flat_map_list {A B C} (h : B -> C) (f : A -> list B) l :
  map h (flat_map f l) = flat_map (fun x => map h (f x)) l.
Proof.
  induction l as [|x l IH]; simpl; auto. now rewrite map_app, IH.
Qed.

(** X18. Annotating a path read backwards gives the interchanges of the
    path in reverse order, each with its two labels exchanged. *)
Theorem interchanges_reversed df p :
  interchanges df (rev p)
  = rev (map reverse_interchange (interchanges df p)).
Proof.
  rewrite !interchanges_flat_map, length_rev, map_flat_map_list.
  apply flat_map_mirror. intros i H1 H2.
  rewrite interchange_at_rev by lia. do 3 f_equal. lia.
Qed.

(** ** Routing and the [Line] column *)

Lemma adj_same_ends df df' u v :
  map (fun r => (Station r, Connected_Station r)) df
  = map (fun r => (Station r, Connected_Station r)) df' ->
  adj (build_graph df) u v -> adj (build_graph df') u v.
Proof.
  intros E A. apply adj_build in A. destruct A as [r [I J]].
  assert (H : In (Station r, Connected_Station r)
                 (map (fun r => (Station r, Connected_Station r)) df'))
    by (rewrite <- E; apply in_map_iff; eauto).
  apply in_map_iff in H. destruct H as [r' [[= E1 E2] I']].
  apply adj_build. exists r'. split; auto.
  apply joins_spec in J. apply joins_spec. rewrite E1, E2. exact J.
Qed.

(** X19. Routing does not look at the [Line] column: two dataframes whose
    rows have the same two stations, row by row, give routes with the same
    number of stations for every pair for which a route is found. *)
Theorem FindRoute_ignores_lines df df' source destination p :
  map (fun r => (Station r, Connected_Station r)) df
  = map (fun r => (Station r, Connected_Station r)) df' ->
  FindRoute (build_graph df) source destination = RouteFound p ->
  exists p',
    FindRoute (build_graph df') source destination = RouteFound p'
    /\ List.length p' = List.length p.
Proof.
  intros E F. apply FindRoute_RouteFound in F. destruct F as [N [R M]].
  assert (R' : route (build_graph df') source destination p).
  { destruct R as [Hh [Hl Hk]]. repeat split; auto.
    apply linked_mono with (G := build_graph df); auto.
    intros u v. now apply adj_same_ends. }
  destruct (@FindRoute_found df' _ _ _ N R') as [p' [F' [Rp' M']]].
  exists p'. split; auto.
  assert (Rp : route (build_graph df) source destination p').
  { destruct Rp' as [Hh [Hl Hk]]. repeat split; auto.
    apply linked_mono with (G := build_graph df'); auto.
    intros u v. now apply adj_same_ends. }
  pose proof (M' _ R') as H1. pose proof (M _ Rp) as H2.
  apply route_at in Rp', R'. destruct Rp' as [L' _], R' as [L _].
  unfold hops, station in *. lia.
Qed.

Lemma FindRoute_ignores_lines_witness :
  FindRoute (build_graph df_scenario) "A" "D"
  = RouteFound ["A"; "B"; "C"; "D"]%string
  /\ exists p',
       FindRoute (build_graph
                    [ mkRow "A" "B" "x"; mkRow "B" "C" "y"; mkRow "C" "D" "z" ])
                 "A" "D" = RouteFound p'
       /\ List.length p' = 4.
Proof.
  split; [reflexivity|].
  apply (@FindRoute_ignores_lines df_scenario
           [ mkRow "A" "B" "x"; mkRow "B" "C" "y"; mkRow "C" "D" "z" ]
           "A" "D" ["A"; "B"; "C"; "D"]%string); reflexivity.
Defined.
